(** * Apriori frequent itemsets and association rules

    A shallow embedding of [find_itemsets_rules.py] and the properties of
    its level-wise search and of its rule miner.

    Modelling conventions.
    - An item is a token of the input file, a Python [str]; it is
      represented by the [string] of its UTF-8 bytes.  Python orders [str]
      values lexicographically by code point, which on UTF-8 bytes is
      [String.compare]; it walks a [str] code point by code point, which on
      UTF-8 bytes is [code_points].
    - A Python [dict] is a [gmap]: equality of dicts is equality of maps and
      does not see insertion order.  The keys of the count tables are
      heterogeneous in the source (a bare item at level 1, a tuple of items
      from level 2 on), hence the two-constructor type [key].
    - A Python [set] of items is a [gset string].
    - Counts and the support threshold are Python [int]s: [Z].
    - [support / count] is Python's true division of two [int]s.  The rule
      miner is given twice.  [generate_association_rules] computes with the
      exact quotient in [Q] and a threshold in [Q]: the confidence as a
      rational number.  [generate_association_rules_double] computes as
      Python does: the quotient is rounded to the nearest double, ties to
      even ([truediv_double], the double being given by its value in [Q]),
      a quotient too large for a double raises [OverflowError], and the
      threshold is a Python [float], which may be infinite or not a number.
    - Exceptions ([KeyError], [IndexError], [ZeroDivisionError],
      [OverflowError]) are values of [error]; fallible functions return
      [error + _].
    - The [while] loop of [apriori] takes a fuel argument; it returns [None]
      only when the fuel runs out while the loop condition still holds. *)

From Stdlib Require Import ZArith QArith Ascii String.
From stdpp Require Import gmap strings list sorting fin_maps.

Local Open Scope Z_scope.

(** ** Data model *)

Definition item := string.

Inductive key :=
  | KItem (i : item)
  | KTuple (t : list item).

Global Instance key_eq_dec : EqDecision key.
Proof. solve_decision. Defined.

Definition key_to_sum (κ : key) : item + list item :=
  match κ with KItem i => inl i | KTuple t => inr t end.

Definition key_of_sum (s : item + list item) : key :=
  match s with inl i => KItem i | inr t => KTuple t end.

Global Instance key_countable : Countable key.
Proof.
  apply (inj_countable' key_to_sum key_of_sum).
  by intros [].
Defined.

Abbreviation table := (gmap key Z).
Abbreviation basket := (gset item).

(** ** The order of items *)

Definition item_le (a b : item) : Prop := String.leb a b = true.
Definition item_lt (a b : item) : Prop := String.compare a b = Lt.

Global Instance item_le_dec : RelDecision item_le.
Proof. intros a b. unfold item_le. apply _. Defined.

Global Instance item_lt_dec : RelDecision item_lt.
Proof. intros a b. unfold item_lt. apply _. Defined.

(** ** Level-1 Counter: [generate_all_single_candidates]

    [c_k[x] += 1] when [x] is a key, [c_k[x] = 1] otherwise. *)

Definition increment (c : table) (κ : key) : table :=
  match c !! κ with
  | Some n => <[κ := n + 1]> c
  | None => <[κ := 1]> c
  end.

(** The inner loop [for item in row_list] of the counter. *)
Definition count_row (c_1 : table) (row_list : list item) : table :=
  foldl (λ c i, increment c (KItem i)) c_1 row_list.

(** The file is given as the list of its rows, each row already split into
    its tokens ([row.split()]). *)
Definition generate_all_single_candidates (rows : list (list item))
  : table * list basket :=
  foldl (λ '(c_1, all_baskets) row_list,
           (count_row c_1 row_list, all_baskets ++ [list_to_set row_list]))
        (∅, []) rows.

(** ** Support Filter: [filter_candidates] *)

Definition filter_candidates (c_k : table) (support : Z) : table :=
  map_fold (λ itemset total_count l_k,
              if decide (total_count > support)
              then <[itemset := total_count]> l_k else l_k)
           ∅ c_k.

(** ** Candidate Generator: [generate_next_candidates] *)

(** [itertools.combinations(l, k)]: the length-[k] subsequences of [l], in
    lexicographic order of their positions. *)
Fixpoint combinations {A} (l : list A) (k : nat) : list (list A) :=
  match k, l with
  | O, _ => [[]]
  | S _, [] => []
  | S k', x :: l' => (cons x <$> combinations l' k') ++ combinations l' k
  end.

(** [l_1_set & basket]: a member of the basket, an item, is kept when the
    key set holds it as a bare item (a tuple key never equals an item). *)
Definition set_inter (l_1_set : gset key) (b : basket) : basket :=
  filter (λ i, KItem i ∈ l_1_set) b.

(** [list(s)] followed by [.sort()]. *)
Definition sorted_list (s : basket) : list item :=
  merge_sort item_le (elements s).

(** The loop [for tup in current_candidates] for one basket. *)
Definition count_basket (b : basket) (c_k : table)
    (current_candidates : list (list item)) : table :=
  foldl (λ c tup,
           if decide ((list_to_set tup : basket) ⊆ b)
           then increment c (KTuple tup) else c)
        c_k current_candidates.

Definition generate_next_candidates (all_baskets : list basket)
    (l_1 : table) (k : nat) : table :=
  let l_1_set := dom l_1 in
  foldl (λ c_k b,
           let frequent_items := sorted_list (set_inter l_1_set b) in
           let current_candidates := combinations frequent_items k in
           count_basket b c_k current_candidates)
        ∅ all_baskets.

(** ** Apriori Driver: [apriori] *)

(** [{**a, **b}]: the entries of [b] win on common keys. *)
Definition dict_merge (a b : table) : table := b ∪ a.

(** The [while len(l_k) != 0] loop; the state is
    [(l_k, all_frequent_itemsets, all_itemsets_greater_than_1, k)]. *)
Fixpoint apriori_loop (fuel : nat) (all_baskets : list basket) (support : Z)
    (l_1 l_k all_frequent_itemsets all_itemsets_greater_than_1 : table)
    (k : nat) : option (table * table * nat) :=
  if decide (size l_k ≠ 0%nat) then
    match fuel with
    | O => None
    | S fuel' =>
        let c_k := generate_next_candidates all_baskets l_1 k in
        let l_k' := filter_candidates c_k support in
        apriori_loop fuel' all_baskets support l_1 l_k'
          (dict_merge all_frequent_itemsets l_k')
          (dict_merge all_itemsets_greater_than_1 l_k')
          (S k)
    end
  else Some (all_frequent_itemsets, all_itemsets_greater_than_1, k).

(** The driver with the final value of its local [k] kept. *)
Definition apriori_levels (fuel : nat) (all_baskets : list basket)
    (support : Z) (c_1 : table) : option (table * table * nat) :=
  let l_1 := filter_candidates c_1 support in
  apriori_loop fuel all_baskets support l_1 l_1 l_1 ∅ 2.

Definition apriori (fuel : nat) (all_baskets : list basket) (support : Z)
    (c_1 : table) : option (table * table) :=
  fst <$> apriori_levels fuel all_baskets support c_1.

(** ** Rule Miner: [generate_association_rules] *)

Inductive error :=
  | KeyError (κ : key)
  | IndexError
  | ZeroDivisionError
  | OverflowError.

Definition bind {A B} (x : error + A) (f : A → error + B) : error + B :=
  match x with inl e => inl e | inr a => f a end.

Notation "'try' x := e 'in' k" := (bind e (λ x, k))
  (at level 10, x name, e at level 100, k at level 200).

(** A [for] loop whose body may raise. *)
Fixpoint for_each {A S} (l : list A) (body : S → A → error + S) (s : S)
  : error + S :=
  match l with
  | [] => inr s
  | x :: l' => try s' := body s x in for_each l' body s'
  end.

(** The emitted tuple [(curr_item, "->", remaining_items, support, conf)]
    without its constant second component. *)
Record rule := Rule {
  antecedent : basket;
  consequent : basket;
  rule_support : Z;
  confidence : Q
}.

(** A byte [10xxxxxx] continues the UTF-8 encoding of a code point. *)
Definition is_continuation (c : ascii) : bool :=
  match c with
  | Ascii _ _ _ _ _ _ b6 b7 => b7 && negb b6
  end.

(** Whether the first byte of [s] continues a code point. *)
Definition continues (s : string) : bool :=
  match s with
  | String c _ => is_continuation c
  | EmptyString => false
  end.

(** The one-character strings of a [str]: its bytes, grouped by code
    point. *)
Fixpoint code_points (s : string) : list string :=
  match s with
  | EmptyString => []
  | String c s' =>
      match code_points s' with
      | p :: ps =>
          if continues s' then String c p :: ps
          else String c EmptyString :: p :: ps
      | [] => [String c EmptyString]
      end
  end.

(** A dict key as a Python sequence: a tuple is the sequence of its
    components, a [str] the sequence of its one-character strings. *)
Definition key_seq (κ : key) : list item :=
  match κ with
  | KTuple t => t
  | KItem s => code_points s
  end.

(** [d[k]]. *)
Definition getitem (d : table) (κ : key) : error + Z :=
  match d !! κ with Some v => inr v | None => inl (KeyError κ) end.

(** [support / d]. *)
Definition truediv (support d : Z) : error + Q :=
  if decide (d = 0) then inl ZeroDivisionError
  else inr (inject_Z support / inject_Z d)%Q.

(** The key under which the support of the antecedent [item] is read:
    [item] when [len(item) > 1], [item[0]] otherwise. *)
Definition antecedent_key (item : list item) : error + key :=
  if decide (1 < length item)%nat then inr (KTuple item)
  else match item with
       | [] => inl IndexError
       | i0 :: _ => inr (KItem i0)
       end.

Definition Qgtb (x y : Q) : bool := negb (Qle_bool x y).

Definition rule_step (all_frequent_itemsets : table) (conf_threshold : Q)
    (freq_itemset : list item) (support : Z)
    (association_rules : list rule) (item : list item)
  : error + list rule :=
  let curr_item : basket := list_to_set item in
  let remaining_items : basket := list_to_set freq_itemset ∖ curr_item in
  try κ := antecedent_key item in
  try d := getitem all_frequent_itemsets κ in
  try conf := truediv support d in
  inr (if Qgtb conf conf_threshold
       then association_rules ++ [Rule curr_item remaining_items support conf]
       else association_rules).

Definition generate_association_rules
    (all_frequent_itemsets all_itemsets_greater_than_1 : table)
    (conf_threshold : Q) : error + list rule :=
  for_each (map_to_list all_itemsets_greater_than_1)
    (λ rules '(κ, support),
       let freq_itemset := key_seq κ in
       for_each (seq 1 (length freq_itemset - 1))
         (λ rules i,
            for_each (combinations freq_itemset i)
              (rule_step all_frequent_itemsets conf_threshold
                         freq_itemset support)
              rules)
         rules)
    [].

(** ** Rule Miner with the arithmetic of Python's [float] *)

(** A Python [float]: a finite double, given by its value, an infinity or
    a NaN. *)
Inductive pyfloat :=
  | Finite (q : Q)
  | PosInf
  | NegInf
  | NaN.

(** [x > t] for a finite double [x] and a float [t]. *)
Definition float_gt (x : Q) (t : pyfloat) : bool :=
  match t with
  | Finite q => Qgtb x q
  | PosInf => false
  | NegInf => true
  | NaN => false
  end.

(** [a / b / 2 ^ s] as a fraction, for positive [a] and [b]. *)
Definition scaled (a b s : Z) : Z * Z :=
  if decide (s ≤ 0) then (a * 2 ^ (- s), b) else (a, b * 2 ^ s).

(** The integer nearest to [n / d], the even one of two that are equally
    near. *)
Definition round_half_even (n d : Z) : Z :=
  let q := n `div` d in
  let r := n `mod` d in
  if decide (2 * r < d) then q
  else if decide (d < 2 * r) then q + 1
  else if Z.even q then q else q + 1.

(** The exponent [e] with [2 ^ e <= a / b < 2 ^ (e + 1)]. *)
Definition binade (a b : Z) : Z :=
  let e := Z.log2 a - Z.log2 b in
  let '(n, d) := scaled a b e in
  if decide (d ≤ n) then e else e - 1.

(** The double nearest to [a / b], for positive [a] and [b]: a multiple
    [m * 2 ^ q] of the spacing [2 ^ q] of the doubles around [a / b], which
    is [2 ^ -1074] for the subnormal ones; [None] when it would be
    [2 ^ 1024] or more. *)
Definition nearest_double (a b : Z) : option Q :=
  let q := Z.max (binade a b - 52) (-1074) in
  let '(n, d) := scaled a b q in
  let m := round_half_even n d in
  let v := if decide (0 ≤ q) then inject_Z (m * 2 ^ q)
           else Qred (m # Z.to_pos (2 ^ (- q))) in
  if Qle_bool (inject_Z (2 ^ 1024)) v then None else Some v.

(** [support / d] on two [int]s. *)
Definition truediv_double (support d : Z) : error + Q :=
  if decide (d = 0) then inl ZeroDivisionError
  else if decide (support = 0) then inr 0%Q
  else match nearest_double (Z.abs support) (Z.abs d) with
       | None => inl OverflowError
       | Some v => inr (if decide (0 < support * d) then v else Qopp v)
       end.

Definition rule_step_double (all_frequent_itemsets : table)
    (conf_threshold : pyfloat) (freq_itemset : list item) (support : Z)
    (association_rules : list rule) (item : list item)
  : error + list rule :=
  let curr_item : basket := list_to_set item in
  let remaining_items : basket := list_to_set freq_itemset ∖ curr_item in
  try κ := antecedent_key item in
  try d := getitem all_frequent_itemsets κ in
  try conf := truediv_double support d in
  inr (if float_gt conf conf_threshold
       then association_rules ++ [Rule curr_item remaining_items support conf]
       else association_rules).

Definition generate_association_rules_double
    (all_frequent_itemsets all_itemsets_greater_than_1 : table)
    (conf_threshold : pyfloat) : error + list rule :=
  for_each (map_to_list all_itemsets_greater_than_1)
    (λ rules '(κ, support),
       let freq_itemset := key_seq κ in
       for_each (seq 1 (length freq_itemset - 1))
         (λ rules i,
            for_each (combinations freq_itemset i)
              (rule_step_double all_frequent_itemsets conf_threshold
                                freq_itemset support)
              rules)
         rules)
    [].

(** The [__main__] block for one pair of thresholds, on the rows of the
    data file. *)
Definition mine (fuel : nat) (rows : list (list item)) (support : Z)
    (conf_threshold : Q) : option (table * (error + list rule)) :=
  let '(c_1, all_baskets) := generate_all_single_candidates rows in
  '(all_frequent_itemsets, all_itemsets_greater_than_1)
     ← apriori fuel all_baskets support c_1;
  Some (all_frequent_itemsets,
        generate_association_rules all_frequent_itemsets
          all_itemsets_greater_than_1 conf_threshold).

(** The same with the arithmetic of Python's [float]. *)
Definition mine_double (fuel : nat) (rows : list (list item)) (support : Z)
    (conf_threshold : pyfloat) : option (table * (error + list rule)) :=
  let '(c_1, all_baskets) := generate_all_single_candidates rows in
  '(all_frequent_itemsets, all_itemsets_greater_than_1)
     ← apriori fuel all_baskets support c_1;
  Some (all_frequent_itemsets,
        generate_association_rules_double all_frequent_itemsets
          all_itemsets_greater_than_1 conf_threshold).

(** * Specification vocabulary *)

(** [c.get(κ, 0)]: the count a table holds for a key. *)
Definition cnt (c : table) (κ : key) : Z := default 0 (c !! κ).

(** How often a key is incremented by a run of increments. *)
Definition occurrences (κ : key) (l : list key) : nat :=
  length (filter (λ x, x = κ) l).

(** No key is stored with a count below one. *)
Definition positive_table (c : table) : Prop :=
  ∀ κ n, c !! κ = Some n → 1 ≤ n.

(** The keys one basket increments, in the order of the loop. *)
Definition basket_keys (l_1 : table) (k : nat) (b : basket) : list key :=
  KTuple <$> filter (λ tup, (list_to_set tup : basket) ⊆ b)
               (combinations (sorted_list (set_inter (dom l_1) b)) k).

(** The number of baskets that contain every item of [t]. *)
Definition support_count (all_baskets : list basket) (t : list item) : Z :=
  Z.of_nat (length (filter (λ b, (list_to_set t : basket) ⊆ b) all_baskets)).

(** A canonical itemset of size [k] over the level-1 frequent items. *)
Definition canonical (l_1 : table) (k : nat) (t : list item) : Prop :=
  length t = k ∧ StronglySorted item_lt t ∧
  ∀ i, i ∈ t → is_Some (l_1 !! KItem i).

(** The size of the largest basket, 0 for the empty corpus. *)
Definition max_basket_size (all_baskets : list basket) : nat :=
  max_list (size <$> all_baskets).

(** The frequent table the loop computes for size [k]. *)
Definition level (all_baskets : list basket) (support : Z) (l_1 : table)
    (k : nat) : table :=
  filter_candidates (generate_next_candidates all_baskets l_1 k) support.

(** The table a cumulative dict [a] has become after the levels
    [k], ..., [k' - 1] were merged into it. *)
Definition merged (all_baskets : list basket) (support : Z) (l_1 a : table)
    (k k' : nat) (κ : key) (n : Z) : Prop :=
  (∃ j, (k ≤ j < k')%nat ∧ level all_baskets support l_1 j !! κ = Some n) ∨
  (a !! κ = Some n ∧
   ∀ j, (k ≤ j < k')%nat → level all_baskets support l_1 j !! κ = None).

(** The rule one antecedent contributes, given its support [d]. *)
Definition emit (conf_threshold : Q) (X : list item) (sup : Z)
    (A : list item) (d : Z) : list rule :=
  let conf := (inject_Z sup / inject_Z d)%Q in
  if Qgtb conf conf_threshold
  then [Rule (list_to_set A) (list_to_set X ∖ list_to_set A) sup conf]
  else [].

(** The antecedents the miner enumerates for the entry [(κ, sup)]. *)
Definition enumerated (g : table) (κ : key) (sup : Z) (A : list item) : Prop :=
  g !! κ = Some sup ∧
  ∃ i, (1 ≤ i < length (key_seq κ))%nat ∧ A ∈ combinations (key_seq κ) i.

(** The support the miner reads for an antecedent. *)
Definition antecedent_support (a : table) (A : list item) : option Z :=
  match antecedent_key A with
  | inr ak => a !! ak
  | inl _ => None
  end.

(** Every enumerated antecedent has a non-zero support in [a]. *)
Definition miner_ready (a g : table) : Prop :=
  ∀ κ sup A, enumerated g κ sup A →
    ∃ d, antecedent_support a A = Some d ∧ d ≠ 0.

(** The rules emitted for one entry of the table of the itemsets of size
    at least two, when no lookup fails. *)
Definition rules_of (a : table) (thr : Q) (κ : key) (sup : Z) : list rule :=
  seq 1 (length (key_seq κ) - 1) ≫= λ i,
    combinations (key_seq κ) i ≫= λ A,
      from_option (emit thr (key_seq κ) sup A) [] (antecedent_support a A).

(** The key shape of the rule miner: the bare item for an itemset of one
    item, the tuple otherwise. *)
Definition itemset_key (A : list item) : key :=
  match A with
  | [x] => KItem x
  | _ => KTuple A
  end.

(** The Candidate Generator with the subset test of its inner loop
    removed, and nothing else changed. *)
Definition count_basket_unchecked (c_k : table)
    (current_candidates : list (list item)) : table :=
  foldl (λ c tup, increment c (KTuple tup)) c_k current_candidates.

Definition generate_next_candidates_unchecked (all_baskets : list basket)
    (l_1 : table) (k : nat) : table :=
  let l_1_set := dom l_1 in
  foldl (λ c_k b,
           let frequent_items := sorted_list (set_inter l_1_set b) in
           let current_candidates := combinations frequent_items k in
           count_basket_unchecked c_k current_candidates)
        ∅ all_baskets.

(** The three-row file of the scenarios. *)
Definition corpus : list (list item) := [["a"; "b"]; ["a"; "b"; "c"]; ["a"]].

(** The rule one antecedent contributes in Python's arithmetic, given the
    double [conf] of its confidence. *)
Definition emit_double (conf_threshold : pyfloat) (X : list item) (sup : Z)
    (A : list item) (conf : Q) : list rule :=
  if float_gt conf conf_threshold
  then [Rule (list_to_set A) (list_to_set X ∖ list_to_set A) sup conf]
  else [].

(** The double of the confidence of an antecedent, when the miner can
    compute it. *)
Definition antecedent_confidence (a : table) (sup : Z) (A : list item)
  : option Q :=
  match antecedent_support a A with
  | Some d => match truediv_double sup d with
              | inr conf => Some conf
              | inl _ => None
              end
  | None => None
  end.

(** The rules emitted in Python's arithmetic for one entry of the table of
    the itemsets of size at least two, when nothing is raised. *)
Definition rules_of_double (a : table) (thr : pyfloat) (κ : key) (sup : Z)
  : list rule :=
  seq 1 (length (key_seq κ) - 1) ≫= λ i,
    combinations (key_seq κ) i ≫= λ A,
      from_option (emit_double thr (key_seq κ) sup A) []
        (antecedent_confidence a sup A).

(** Two results of the miner that differ at most in the order of the
    rules. *)
Definition same_rules (r r' : error + list rule) : Prop :=
  match r, r' with
  | inr l, inr l' => l ≡ₚ l'
  | inl _, inl _ => True
  | _, _ => False
  end.

(** Two runs with equal tables and the same rules up to their order. *)
Definition same_run (x y : option (table * (error + list rule))) : Prop :=
  match x, y with
  | Some (a, r), Some (a', r') => a = a' ∧ same_rules r r'
  | None, None => True
  | _, _ => False
  end.

(** How often the token [i] occurs in the file. *)
Definition token_count (rows : list (list item)) (i : item) : Z :=
  Z.of_nat (length (filter (λ x, x = i) (mjoin rows))).

(** * Properties *)

(** ** The order of items is a total order *)

Lemma ascii_compare_refl a : Ascii.compare a a = Eq.
Proof. apply N.compare_refl. Qed.

Lemma ascii_compare_lt_trans a b c :
  Ascii.compare a b = Lt → Ascii.compare b c = Lt → Ascii.compare a c = Lt.
Proof.
  unfold Ascii.compare. rewrite !N.compare_lt_iff. apply N.lt_trans.
Qed.

Lemma string_compare_refl s : String.compare s s = Eq.
Proof. induction s as [|a s IH]; simpl; [done|]. by rewrite ascii_compare_refl. Qed.

Lemma item_lt_irrefl a : ¬ item_lt a a.
Proof. unfold item_lt. by rewrite string_compare_refl. Qed.

Lemma item_lt_trans a b c : item_lt a b → item_lt b c → item_lt a c.
Proof.
  unfold item_lt. revert b c.
  induction a as [|x a IH]; intros [|y b] [|z c]; simpl; try done.
  destruct (Ascii.compare x y) eqn:Hxy; try done;
    destruct (Ascii.compare y z) eqn:Hyz; try done; intros H1 H2.
  - apply Ascii.compare_eq_iff in Hxy as ->.
    apply Ascii.compare_eq_iff in Hyz as ->.
    rewrite ascii_compare_refl. eauto.
  - apply Ascii.compare_eq_iff in Hxy as ->. by rewrite Hyz.
  - apply Ascii.compare_eq_iff in Hyz as ->. by rewrite Hxy.
  - by rewrite (ascii_compare_lt_trans _ _ _ Hxy Hyz).
Qed.

Global Instance item_lt_strict : StrictOrder item_lt.
Proof.
  split.
  - intros a. apply item_lt_irrefl.
  - intros a b c. apply item_lt_trans.
Qed.

Lemma item_le_lt a b : item_le a b ↔ item_lt a b ∨ a = b.
Proof.
  unfold item_le, item_lt, String.leb. split.
  - destruct (String.compare a b) eqn:H; try done; intros _.
    + right. by apply String.compare_eq_iff.
    + by left.
  - intros [-> | ->]; [done|]. by rewrite string_compare_refl.
Qed.

Lemma item_lt_trichotomy a b : item_lt a b ∨ a = b ∨ item_lt b a.
Proof.
  unfold item_lt. rewrite (String.compare_antisym b a).
  destruct (String.compare a b) eqn:H; simpl; auto.
  right; left. by apply String.compare_eq_iff.
Qed.

Global Instance item_le_total : Total item_le.
Proof.
  intros a b. rewrite !item_le_lt.
  destruct (item_lt_trichotomy a b) as [?|[?|?]]; auto.
Qed.

Global Instance item_le_trans : Transitive item_le.
Proof.
  intros a b c. rewrite !item_le_lt.
  intros [?| ->] [?| ->]; auto. left. by apply item_lt_trans with b.
Qed.

(** ** Sorted lists of distinct items *)

Lemma sorted_list_perm (s : basket) : sorted_list s ≡ₚ elements s.
Proof. apply merge_sort_Permutation. Qed.

Lemma elem_of_sorted_list (s : basket) i : i ∈ sorted_list s ↔ i ∈ s.
Proof. by rewrite sorted_list_perm, elem_of_elements. Qed.

Lemma NoDup_sorted_list (s : basket) : NoDup (sorted_list s).
Proof. rewrite sorted_list_perm. apply NoDup_elements. Qed.

Lemma StronglySorted_le_lt (l : list item) :
  StronglySorted item_le l → NoDup l → StronglySorted item_lt l.
Proof.
  induction 1 as [|x l Hs IH Hx]; intros Hnd; [constructor|].
  apply NoDup_cons in Hnd as [Hx' Hnd].
  constructor; [by apply IH|].
  apply Forall_forall. intros y Hy.
  rewrite Forall_forall in Hx. specialize (Hx y Hy).
  apply item_le_lt in Hx as [?| ->]; done.
Qed.

Lemma sorted_list_sorted (s : basket) : StronglySorted item_lt (sorted_list s).
Proof.
  apply StronglySorted_le_lt; [|apply NoDup_sorted_list].
  apply StronglySorted_merge_sort; apply _.
Qed.

Lemma StronglySorted_lt_NoDup (l : list item) :
  StronglySorted item_lt l → NoDup l.
Proof.
  induction 1 as [|x l Hs IH Hx]; constructor; [|done].
  intros Hin. rewrite Forall_forall in Hx.
  by apply (item_lt_irrefl x), Hx.
Qed.

(** ** Combinations *)

Section combinations.
Context {A : Type}.
Implicit Types (l t : list A) (k : nat).

Lemma elem_of_combinations l k t :
  t ∈ combinations l k ↔ sublist t l ∧ length t = k.
Proof.
  revert k t. induction l as [|x l IH]; intros [|k] t; simpl.
  - rewrite list_elem_of_singleton. split.
    + intros ->. split; [constructor|done].
    + intros [_ ?]. by apply nil_length_inv.
  - rewrite elem_of_nil. split; [done|].
    intros [H%sublist_nil_r ?]; by subst.
  - rewrite list_elem_of_singleton. split.
    + intros ->. split; [apply sublist_nil_l|done].
    + intros [_ ?]. by apply nil_length_inv.
  - rewrite elem_of_app, list_elem_of_fmap. setoid_rewrite IH. split.
    + intros [(t' & -> & Hs & <-)|[Hs <-]].
      * split; [by constructor|done].
      * split; [by constructor|done].
    + intros [Hs Hlen]. apply sublist_cons_r in Hs as [Hs|(t' & -> & Hs)].
      * by right.
      * left. exists t'. simpl in Hlen. split_and!; [done..|lia].
Qed.


Lemma combinations_sublist l k t : t ∈ combinations l k → sublist t l.
Proof. rewrite elem_of_combinations. tauto. Qed.

Lemma combinations_too_long l k : (length l < k)%nat → combinations l k = [].
Proof.
  intros Hlt. apply elem_of_nil_inv. intros t [Hs Hl]%elem_of_combinations.
  apply sublist_length in Hs. lia.
Qed.

Lemma NoDup_combinations l k : NoDup l → NoDup (combinations l k).
Proof.
  revert k. induction l as [|x l IH]; intros [|k] Hnd; simpl.
  - apply NoDup_singleton.
  - constructor.
  - apply NoDup_singleton.
  - apply NoDup_cons in Hnd as [Hx Hnd].
    apply NoDup_app. split_and!.
    + apply NoDup_fmap_2; [apply _|by apply IH].
    + intros t (t' & -> & _)%list_elem_of_fmap Hin.
      apply combinations_sublist in Hin.
      apply Hx. eapply elem_of_sublist; [|done]. by left.
    + by apply IH.
Qed.
End combinations.

(** Among the lists of distinct items in ascending order, the
    subsequences of one are the lists made of its elements. *)
Lemma StronglySorted_sublist (t l : list item) :
  sublist t l → StronglySorted item_lt l → StronglySorted item_lt t.
Proof.
  induction 1 as [|x t l Hs IH|x t l Hs IH]; intros Hl; [done|..].
  - apply StronglySorted_inv in Hl as [Hl Hx].
    constructor; [by apply IH|].
    apply Forall_forall. intros y Hy. rewrite Forall_forall in Hx.
    apply Hx. by eapply elem_of_sublist.
  - apply StronglySorted_inv in Hl as [Hl _]. by apply IH.
Qed.

Lemma sorted_subseteq_sublist (t l : list item) :
  StronglySorted item_lt l → StronglySorted item_lt t → t ⊆ l → sublist t l.
Proof.
  intros Hl. revert t.
  induction Hl as [|x l Hl IH Hx]; intros t Ht Hsub.
  - destruct t as [|y t]; [done|].
    by destruct (not_elem_of_nil y); apply Hsub; left.
  - rewrite Forall_forall in Hx.
    destruct t as [|y t]; [apply sublist_nil_l|].
    apply StronglySorted_inv in Ht as [Ht Hy]. rewrite Forall_forall in Hy.
    assert (Htl : ∀ z, z ∈ t → z ∈ l ∧ item_lt x z).
    { intros z Hz. assert (z ∈ x :: l) as [->|Hzl]%elem_of_cons
        by (apply Hsub; by right).
      - assert (y ∈ x :: l) as [->|Hyl]%elem_of_cons by (apply Hsub; by left).
        + destruct (item_lt_irrefl x). by apply Hy.
        + destruct (item_lt_irrefl x).
          apply item_lt_trans with y; [by apply Hx|by apply Hy].
      - split; [done|]. by apply Hx. }
    assert (y ∈ x :: l) as [->|Hyl]%elem_of_cons by (apply Hsub; by left).
    + apply sublist_skip, IH; [done|]. intros z Hz. by apply Htl.
    + apply sublist_cons, IH.
      * constructor; [done|]. by apply Forall_forall.
      * intros z [->|Hz]%elem_of_cons; [done|]. by apply Htl.
Qed.

Lemma elem_of_combinations_sorted (l t : list item) k :
  StronglySorted item_lt l →
  t ∈ combinations l k ↔
    length t = k ∧ StronglySorted item_lt t ∧ ∀ i, i ∈ t → i ∈ l.
Proof.
  intros Hl. rewrite elem_of_combinations. split.
  - intros [Hs Hlen]. split_and!; [done|by eapply StronglySorted_sublist|].
    intros i Hi. by eapply elem_of_sublist.
  - intros (Hlen & Ht & Hsub). split; [|done].
    by apply sorted_subseteq_sublist.
Qed.

(** ** Count tables built by repeated increments *)

Implicit Types (c c_k l_k : table) (b : basket) (κ : key).
Implicit Types (t : list item) (all_baskets : list basket) (k : nat).

Lemma lookup_increment c x κ :
  increment c x !! κ = if decide (x = κ) then Some (cnt c κ + 1) else c !! κ.
Proof.
  unfold increment, cnt. case_decide as Hx.
  - subst x. destruct (c !! κ) eqn:E; simpl; by rewrite lookup_insert_eq.
  - destruct (c !! x); by rewrite lookup_insert_ne.
Qed.

Lemma lookup_foldl_increment l c κ :
  foldl increment c l !! κ =
    if decide (occurrences κ l = 0%nat) then c !! κ
    else Some (cnt c κ + Z.of_nat (occurrences κ l)).
Proof.
  unfold occurrences. revert c.
  induction l as [|x l IH]; intros c; simpl; [done|].
  rewrite IH, filter_cons. unfold cnt at 1. rewrite !lookup_increment.
  destruct (decide (x = κ)) as [->|Hne]; simpl.
  - repeat case_decide; try lia; f_equal; lia.
  - done.
Qed.

Lemma occurrences_app κ l1 l2 :
  occurrences κ (l1 ++ l2) = (occurrences κ l1 + occurrences κ l2)%nat.
Proof. unfold occurrences. by rewrite filter_app, length_app. Qed.

Lemma occurrences_NoDup κ l :
  NoDup l → occurrences κ l = if decide (κ ∈ l) then 1%nat else 0%nat.
Proof.
  unfold occurrences. induction 1 as [|x l Hx Hnd IH]; [done|].
  rewrite filter_cons. destruct (decide (x = κ)) as [->|Hne]; simpl.
  - rewrite IH, (decide_False (P := κ ∈ l)) by done.
    by rewrite decide_True by (by left).
  - rewrite IH. apply decide_ext. rewrite elem_of_cons.
    split; [by right|]. by intros [->|?].
Qed.

Lemma occurrences_bind {A} (f : A → list key) `{∀ a, Decision (P a)} κ l :
  (∀ a, NoDup (f a)) → (∀ a, κ ∈ f a ↔ P a) →
  occurrences κ (l ≫= f) = length (filter P l).
Proof.
  intros Hnd HP. induction l as [|a l IH]; [done|].
  rewrite bind_cons, occurrences_app, IH, filter_cons.
  rewrite occurrences_NoDup by done.
  destruct (decide (P a)) as [Ha|Ha].
  - by rewrite decide_True by (by apply HP).
  - by rewrite decide_False by (by rewrite HP).
Qed.

Lemma occurrences_pos κ l : κ ∈ l → (1 ≤ occurrences κ l)%nat.
Proof.
  unfold occurrences. induction 1 as [x l|x y l Hin IH].
  - rewrite filter_cons_True by done. simpl. lia.
  - rewrite filter_cons. case_decide; simpl; lia.
Qed.



Lemma foldl_increment_positive l : positive_table (foldl increment ∅ l).
Proof.
  intros κ n. rewrite lookup_foldl_increment, lookup_empty.
  case_decide; [done|]. unfold cnt. rewrite lookup_empty. simpl.
  intros [= <-]. lia.
Qed.

Lemma foldl_bind {A} (f : A → list key) (l : list A) c :
  foldl (λ c a, foldl increment c (f a)) c l = foldl increment c (l ≫= f).
Proof.
  revert c. induction l as [|a l IH]; intros c; [done|].
  rewrite bind_cons, foldl_app. apply IH.
Qed.

(** ** The Level-1 Counter as a tally of tokens *)

Lemma count_row_tally c row :
  count_row c row = foldl increment c (KItem <$> row).
Proof. unfold count_row. by rewrite foldl_fmap. Qed.

Lemma generate_all_single_candidates_tally rows :
  generate_all_single_candidates rows =
    (foldl increment ∅ (KItem <$> mjoin rows), list_to_set <$> rows).
Proof.
  unfold generate_all_single_candidates.
  enough (∀ c (bs : list basket),
    foldl (λ '(c_1, all_baskets) row_list,
             (count_row c_1 row_list, all_baskets ++ [list_to_set row_list]))
          (c, bs) rows
    = (foldl increment c (KItem <$> mjoin rows),
       bs ++ (list_to_set <$> rows))) as H by apply (H ∅ []).
  induction rows as [|row rows IH]; intros c bs; simpl.
  - by rewrite app_nil_r.
  - rewrite IH, count_row_tally, fmap_app, foldl_app.
    by rewrite <-app_assoc.
Qed.

(** ** The Support Filter *)

Lemma lookup_filter_candidates c_k support κ n :
  filter_candidates c_k support !! κ = Some n ↔
    c_k !! κ = Some n ∧ n > support.
Proof.
  unfold filter_candidates. revert κ n.
  apply (map_fold_weak_ind (λ r m, ∀ κ n,
           r !! κ = Some n ↔ m !! κ = Some n ∧ n > support)).
  - intros κ n. rewrite lookup_empty. split; [done|by intros [? _]].
  - intros i x m r Hi IH κ n. case_decide as Hx.
    + destruct (decide (i = κ)) as [->|Hne].
      * rewrite !lookup_insert_eq. split; [by intros [= <-]|by intros [? _]].
      * by rewrite !lookup_insert_ne.
    + rewrite IH. destruct (decide (i = κ)) as [->|Hne].
      * rewrite lookup_insert_eq, Hi. split; [by intros [? _]|].
        intros [[= <-] ?]. contradiction.
      * by rewrite lookup_insert_ne.
Qed.

Lemma filter_candidates_filter c_k support :
  filter_candidates c_k support = filter (λ '(_, n), n > support) c_k.
Proof.
  apply map_eq. intros κ. apply option_eq. intros n.
  by rewrite lookup_filter_candidates, map_lookup_filter_Some.
Qed.

(** ** The Candidate Generator as a tally of per-basket keys *)

Lemma count_basket_tally b c cands :
  count_basket b c cands =
    foldl increment c
      (KTuple <$> filter (λ tup, (list_to_set tup : basket) ⊆ b) cands).
Proof.
  unfold count_basket. revert c.
  induction cands as [|t cands IH]; intros c; simpl; [done|].
  rewrite IH, filter_cons. by case_decide.
Qed.

Lemma generate_next_candidates_tally all_baskets (l_1 : table) k :
  generate_next_candidates all_baskets l_1 k =
    foldl increment ∅ (all_baskets ≫= basket_keys l_1 k).
Proof.
  unfold generate_next_candidates. rewrite <-foldl_bind.
  unfold basket_keys. generalize (∅ : table).
  induction all_baskets as [|b bs IH]; intros c; simpl; [done|].
  by rewrite IH, count_basket_tally.
Qed.

Lemma elem_of_set_inter (l_1 : table) (b : basket) i :
  i ∈ set_inter (dom l_1) b ↔ is_Some (l_1 !! KItem i) ∧ i ∈ b.
Proof. unfold set_inter. by rewrite elem_of_filter, elem_of_dom. Qed.

Lemma combination_subseteq_basket (l_1 : table) k (b : basket) tup :
  tup ∈ combinations (sorted_list (set_inter (dom l_1) b)) k →
  (list_to_set tup : basket) ⊆ b.
Proof.
  intros Hin%combinations_sublist i Hi%elem_of_list_to_set.
  eapply elem_of_sublist in Hi; [|done].
  by apply elem_of_sorted_list, elem_of_set_inter in Hi as [_ ?].
Qed.

Lemma NoDup_basket_keys (l_1 : table) k b : NoDup (basket_keys l_1 k b).
Proof.
  unfold basket_keys. apply NoDup_fmap_2; [by intros ?? [=]|].
  apply NoDup_filter, NoDup_combinations, NoDup_sorted_list.
Qed.

Lemma elem_of_basket_keys (l_1 : table) k b κ :
  κ ∈ basket_keys l_1 k b ↔
    ∃ t, κ = KTuple t ∧ canonical l_1 k t ∧ (list_to_set t : basket) ⊆ b.
Proof.
  unfold basket_keys, canonical. rewrite list_elem_of_fmap.
  setoid_rewrite list_elem_of_filter.
  setoid_rewrite (elem_of_combinations_sorted _ _ _ (sorted_list_sorted _)).
  setoid_rewrite elem_of_sorted_list. setoid_rewrite elem_of_set_inter.
  split.
  - intros (t & -> & Hsub & Hlen & Hs & Hin). exists t.
    split_and!; try done. intros i Hi. by apply Hin.
  - intros (t & -> & (Hlen & Hs & Hin) & Hsub). exists t.
    split_and!; try done. intros i Hi. split; [by apply Hin|].
    by apply Hsub, elem_of_list_to_set.
Qed.

Lemma canonical_dec_key (l_1 : table) k κ :
  Decision (∃ t, κ = KTuple t ∧ canonical l_1 k t).
Proof.
  destruct κ as [i|t].
  - right. by intros (t & [=] & _).
  - destruct (decide (length t = k ∧ StronglySorted item_lt t ∧
                      Forall (λ i, is_Some (l_1 !! KItem i)) t)) as [H|H].
    + left. exists t. split; [done|]. unfold canonical.
      by rewrite <-Forall_forall.
    + right. intros (t' & [= <-] & Hc). apply H. unfold canonical in Hc.
      by rewrite <-Forall_forall in Hc.
Defined.

Lemma occurrences_generate (l_1 : table) k all_baskets t :
  canonical l_1 k t →
  Z.of_nat (occurrences (KTuple t) (all_baskets ≫= basket_keys l_1 k))
  = support_count all_baskets t.
Proof.
  intros Hc. unfold support_count. f_equal.
  apply occurrences_bind; [apply NoDup_basket_keys|].
  intros b. rewrite elem_of_basket_keys. split.
  - by intros (t' & [= <-] & _ & ?).
  - intros Hsub. by exists t.
Qed.

Lemma occurrences_generate_0 (l_1 : table) k all_baskets κ :
  (¬ ∃ t, κ = KTuple t ∧ canonical l_1 k t) →
  occurrences κ (all_baskets ≫= basket_keys l_1 k) = 0%nat.
Proof.
  intros Hn. unfold occurrences. apply length_zero_iff_nil.
  apply elem_of_nil_inv. intros x [-> Hx]%list_elem_of_filter.
  apply list_elem_of_bind in Hx as (b & Hx & _).
  apply elem_of_basket_keys in Hx as (t & -> & Hc & _). apply Hn. eauto.
Qed.

Lemma lookup_generate_next_candidates all_baskets (l_1 : table) k κ n :
  generate_next_candidates all_baskets l_1 k !! κ = Some n ↔
    ∃ t, κ = KTuple t ∧ canonical l_1 k t ∧
         n = support_count all_baskets t ∧ 1 ≤ n.
Proof.
  rewrite generate_next_candidates_tally, lookup_foldl_increment.
  unfold cnt. rewrite lookup_empty. simpl.
  destruct (canonical_dec_key l_1 k κ) as [(t & -> & Hc)|Hn].
  - rewrite (occurrences_generate _ _ _ _ Hc).
    assert (0 ≤ support_count all_baskets t) by (unfold support_count; lia).
    case_decide as H0; split.
    + done.
    + intros (t' & [= <-] & _ & -> & ?).
      rewrite <-(occurrences_generate _ _ _ _ Hc) in *. lia.
    + intros [= <-]. exists t. split_and!; try done.
      rewrite <-(occurrences_generate _ _ _ _ Hc) in *. lia.
    + intros (t' & [= <-] & _ & -> & ?). f_equal; lia.
  - rewrite (occurrences_generate_0 _ _ _ _ Hn). simpl. split; [done|].
    intros (t & -> & Hc & _). destruct Hn. eauto.
Qed.

(** ** Support counts *)

(** Anti-monotonicity of the support count. *)
Lemma support_count_anti all_baskets t t' :
  t' ⊆ t → support_count all_baskets t ≤ support_count all_baskets t'.
Proof.
  intros Hsub. unfold support_count. apply inj_le.
  induction all_baskets as [|b bs IH]; [done|].
  rewrite !filter_cons.
  destruct (decide ((list_to_set t : basket) ⊆ b)) as [Ht|Ht].
  - rewrite decide_True; [simpl; lia|].
    intros i Hi%elem_of_list_to_set. apply Ht, elem_of_list_to_set. auto.
  - case_decide; simpl; lia.
Qed.

Lemma support_count_pos_basket all_baskets t :
  1 ≤ support_count all_baskets t →
  ∃ b, b ∈ all_baskets ∧ (list_to_set t : basket) ⊆ b.
Proof.
  unfold support_count. intros Hpos.
  destruct (filter _ all_baskets) as [|b l] eqn:E; [simpl in Hpos; lia|].
  assert (b ∈ filter (λ b, (list_to_set t : basket) ⊆ b) all_baskets) as Hb
    by (rewrite E; left).
  apply list_elem_of_filter in Hb as [??]. eauto.
Qed.

Lemma support_count_pos_length all_baskets t :
  NoDup t → 1 ≤ support_count all_baskets t →
  (length t ≤ max_basket_size all_baskets)%nat.
Proof.
  intros Hnd (b & Hb & Hsub)%support_count_pos_basket.
  rewrite <-(size_list_to_set (C := basket)) by done.
  etrans; [by apply subseteq_size|].
  apply max_list_elem_of_le, list_elem_of_fmap. eauto.
Qed.

(** ** The levels of the driver *)

Section levels.
Variables (all_baskets : list basket) (support : Z) (l_1 : table).

Local Abbreviation lv := (level all_baskets support l_1).
Local Abbreviation mg := (merged all_baskets support l_1).

Lemma lookup_level k κ n :
  lv k !! κ = Some n ↔
    ∃ t, κ = KTuple t ∧ canonical l_1 k t ∧
         n = support_count all_baskets t ∧ 1 ≤ n ∧ n > support.
Proof.
  unfold level.
  rewrite lookup_filter_candidates, lookup_generate_next_candidates.
  split.
  - intros [(t & -> & ? & ? & ?) ?]. exists t. by split_and!.
  - intros (t & -> & ? & ? & ? & ?). split; [|done]. exists t. by split_and!.
Qed.

Lemma level_disjoint j k κ n :
  lv j !! κ = Some n → j ≠ k → lv k !! κ = None.
Proof.
  intros Hj Hne. destruct (lv k !! κ) as [m|] eqn:Hk; [|done].
  apply lookup_level in Hj as (t & -> & (Hlen & _) & _).
  apply lookup_level in Hk as (t' & [= <-] & (Hlen' & _) & _). congruence.
Qed.

Lemma level_item_None k i : lv k !! KItem i = None.
Proof.
  destruct (lv k !! KItem i) as [m|] eqn:Hk; [|done].
  by apply lookup_level in Hk as (t & [=] & _).
Qed.

(** No level above the size of the largest basket is populated. *)
Lemma level_nonempty_bound k :
  lv k ≠ ∅ → (k ≤ max_basket_size all_baskets)%nat.
Proof.
  intros (κ & n & Hk)%map_choose.
  apply lookup_level in Hk as (t & -> & (<- & Hs & _) & -> & Hpos & _).
  apply support_count_pos_length; [|done].
  by apply StronglySorted_lt_NoDup.
Qed.

Lemma lookup_dict_merge (a d : table) κ n :
  dict_merge a d !! κ = Some n ↔
    d !! κ = Some n ∨ (d !! κ = None ∧ a !! κ = Some n).
Proof. unfold dict_merge. apply lookup_union_Some_raw. Qed.

Lemma merged_step a k k' κ n :
  (k < k')%nat →
  mg (dict_merge a (lv k)) (S k) k' κ n ↔ mg a k k' κ n.
Proof.
  intros Hk. unfold merged. rewrite lookup_dict_merge. split.
  - intros [(j & Hj & Hl)|[[Hl|[Hl Ha]] Hn]].
    + left. exists j. split; [lia|done].
    + left. exists k. split; [lia|done].
    + right. split; [done|]. intros j Hj.
      destruct (decide (j = k)) as [->|]; [done|]. apply Hn. lia.
  - intros [(j & Hj & Hl)|[Ha Hn]].
    + destruct (decide (j = k)) as [->|Hne].
      * right. split; [by left|]. intros j' Hj'.
        apply (level_disjoint k _ _ n); [done|lia].
      * left. exists j. split; [lia|done].
    + right. split.
      * right. split; [apply Hn; lia|done].
      * intros j Hj. apply Hn. lia.
Qed.

Lemma merged_same a k κ n : mg a k k κ n ↔ a !! κ = Some n.
Proof.
  unfold merged. split.
  - intros [(j & Hj & _)|[? _]]; [lia|done].
  - intros Ha. right. split; [done|]. intros j Hj. lia.
Qed.

(** What the loop returns, when it returns. *)
Lemma apriori_loop_result fuel l_k a g k a' g' k' :
  apriori_loop fuel all_baskets support l_1 l_k a g k = Some (a', g', k') →
  (k ≤ k')%nat ∧
  (l_k = ∅ → k' = k) ∧
  (l_k ≠ ∅ → (k < k')%nat ∧ lv (k' - 1) = ∅) ∧
  (∀ j, (k ≤ j)%nat → (S j < k')%nat → lv j ≠ ∅) ∧
  (∀ κ n, a' !! κ = Some n ↔ mg a k k' κ n) ∧
  (∀ κ n, g' !! κ = Some n ↔ mg g k k' κ n).
Proof.
  revert l_k a g k. induction fuel as [|fuel IH]; intros l_k a g k; simpl.
  - case_decide as Hl; [done|]. intros [= <- <- <-].
    apply map_size_empty_iff in Hl.
    split_and!; try done; try lia.
    + intros κ n. by rewrite merged_same.
    + intros κ n. by rewrite merged_same.
  - case_decide as Hl.
    + fold (level all_baskets support l_1 k). intros Hrun.
      apply IH in Hrun as (Hk & Hstop & Hgo & Hmid & Ha & Hg).
      apply map_size_non_empty_iff in Hl.
      assert (lv (k' - 1) = ∅) as Hlast.
      { destruct (decide (lv k = ∅)) as [He|Hne].
        - rewrite (Hstop He). by replace (S k - 1)%nat with k by lia.
        - by apply Hgo. }
      split_and!; try done; try lia.
      * intros j Hj Hj'. destruct (decide (j = k)) as [->|Hne].
        -- intros He. specialize (Hstop He). lia.
        -- apply Hmid; lia.
      * intros κ n. rewrite Ha. apply merged_step. lia.
      * intros κ n. rewrite Hg. apply merged_step. lia.
    + intros [= <- <- <-].
      apply map_size_empty_iff in Hl.
      split_and!; try done; try lia.
      * intros κ n. by rewrite merged_same.
      * intros κ n. by rewrite merged_same.
Qed.

(** The loop returns when it is given more fuel than the size of the
    largest basket. *)
Lemma apriori_loop_terminates fuel l_k a g k :
  (2 ≤ k)%nat →
  (l_k ≠ ∅ → (1 ≤ fuel)%nat) →
  (max_basket_size all_baskets + 2 ≤ fuel + k)%nat →
  is_Some (apriori_loop fuel all_baskets support l_1 l_k a g k).
Proof.
  revert l_k a g k. induction fuel as [|fuel IH]; intros l_k a g k Hk Hf Hm;
    simpl.
  - case_decide as Hl; [|done].
    apply map_size_non_empty_iff, Hf in Hl. lia.
  - case_decide as Hl; [|done]. fold (level all_baskets support l_1 k).
    apply IH; [lia| |lia].
    intros Hne%level_nonempty_bound. lia.
Qed.

(** More fuel does not change the result. *)
Lemma apriori_loop_fuel_mono fuel fuel' l_k a g k r :
  (fuel ≤ fuel')%nat →
  apriori_loop fuel all_baskets support l_1 l_k a g k = Some r →
  apriori_loop fuel' all_baskets support l_1 l_k a g k = Some r.
Proof.
  revert fuel' l_k a g k.
  induction fuel as [|fuel IH]; intros fuel' l_k a g k Hle; simpl.
  - case_decide; [done|]. intros <-. destruct fuel'; simpl; by case_decide.
  - destruct fuel' as [|fuel']; [lia|]. simpl.
    case_decide; [|done]. apply IH. lia.
Qed.
End levels.

(** ** The driver's output *)

Section driver.
Variables (all_baskets : list basket) (support : Z) (c_1 : table).

Local Abbreviation l_1 := (filter_candidates c_1 support).
Local Abbreviation lv := (level all_baskets support l_1).

Lemma apriori_levels_result fuel a g k' :
  apriori_levels fuel all_baskets support c_1 = Some (a, g, k') →
  (2 ≤ k')%nat ∧
  (l_1 = ∅ → k' = 2%nat) ∧
  (l_1 ≠ ∅ → (2 < k')%nat ∧ lv (k' - 1) = ∅) ∧
  (∀ j, (2 ≤ j)%nat → (S j < k')%nat → lv j ≠ ∅) ∧
  (∀ κ n, a !! κ = Some n ↔
     (∃ j, (2 ≤ j < k')%nat ∧ lv j !! κ = Some n) ∨
     (l_1 !! κ = Some n ∧ ∀ j, (2 ≤ j < k')%nat → lv j !! κ = None)) ∧
  (∀ κ n, g !! κ = Some n ↔ ∃ j, (2 ≤ j < k')%nat ∧ lv j !! κ = Some n).
Proof.
  unfold apriori_levels.
  intros (Hk & Hstop & Hgo & Hmid & Ha & Hg)%apriori_loop_result.
  split_and!; try done.
  intros κ n. rewrite Hg. unfold merged. rewrite lookup_empty.
  split; [|by left]. by intros [?|[? _]].
Qed.

Lemma apriori_levels_terminates fuel :
  (max_basket_size all_baskets < fuel)%nat →
  is_Some (apriori_levels fuel all_baskets support c_1).
Proof.
  intros Hf. unfold apriori_levels.
  apply apriori_loop_terminates; [lia|intros _; lia|lia].
Qed.

(** Every entry of the table of the itemsets of size at least two is a
    canonical itemset with its support count. *)
Lemma apriori_above_one fuel a g k' κ sup :
  apriori_levels fuel all_baskets support c_1 = Some (a, g, k') →
  g !! κ = Some sup →
  ∃ X, κ = KTuple X ∧ (2 ≤ length X < k')%nat ∧
       canonical l_1 (length X) X ∧
       sup = support_count all_baskets X ∧ 1 ≤ sup ∧ sup > support.
Proof.
  intros (_ & _ & _ & _ & _ & Hg)%apriori_levels_result Hκ.
  apply Hg in Hκ as (j & Hj & Hl).
  apply lookup_level in Hl as (X & -> & Hc & -> & ? & ?).
  exists X. destruct Hc as (<- & Hs & Hin).
  split_and!; try done; lia.
Qed.

(** Anti-monotonicity: every non-empty proper sub-combination of a
    frequent itemset is a key of the table of all frequent itemsets,
    under the key the rule miner reads. *)
Lemma apriori_antecedent fuel a g k' X sup i A :
  apriori_levels fuel all_baskets support c_1 = Some (a, g, k') →
  g !! KTuple X = Some sup →
  (1 ≤ i < length X)%nat → A ∈ combinations X i →
  ∃ ak d, antecedent_key A = inr ak ∧ a !! ak = Some d ∧ d > support ∧
    ((∃ x, A = [x] ∧ ak = KItem x ∧ x ∈ X ∧ c_1 !! KItem x = Some d) ∨
     ((2 ≤ length A)%nat ∧ ak = KTuple A ∧
      d = support_count all_baskets A ∧ sup ≤ d)).
Proof.
  intros Hrun Hg Hi HA.
  destruct (apriori_above_one _ _ _ _ _ _ Hrun Hg)
    as (X' & [= <-] & Hlen & (_ & HsX & HinX) & -> & Hpos & Hfreq).
  apply apriori_levels_result in Hrun as (_ & _ & _ & _ & Ha & _).
  apply elem_of_combinations in HA as [Hsub HlenA].
  assert (A ⊆ X) as HAX by by apply sublist_subseteq.
  destruct (decide (i = 1%nat)) as [->|Hi1].
  - destruct A as [|x [|??]]; simplify_eq/=.
    assert (x ∈ X) as Hx by (apply HAX; left).
    destruct (HinX x Hx) as [d Hd].
    exists (KItem x), d. split_and!.
    + done.
    + apply Ha. right. split; [done|]. intros j _. apply level_item_None.
    + by apply lookup_filter_candidates in Hd as [_ ?].
    + left. exists x. split_and!; try done.
      by apply lookup_filter_candidates in Hd as [? _].
  - assert (support_count all_baskets X ≤ support_count all_baskets A)
      by by apply support_count_anti.
    exists (KTuple A), (support_count all_baskets A). split_and!.
    + unfold antecedent_key. rewrite decide_True by lia. done.
    + apply Ha. left. exists i. split; [lia|].
      apply lookup_level. exists A. split_and!; try done; try lia.
      split_and!; [done|by eapply StronglySorted_sublist|].
      intros y Hy. apply HinX. by apply HAX.
    + lia.
    + right. split_and!; try done. lia.
Qed.
End driver.

(** ** The rule miner *)

Lemma Qgtb_lt (x y : Q) : Qgtb x y = true ↔ (y < x)%Q.
Proof.
  unfold Qgtb. rewrite negb_true_iff, <-not_true_iff_false, Qle_bool_iff.
  split; [apply Qnot_le_lt|apply Qlt_not_le].
Qed.

Lemma confidence_le_1 (s d : Z) :
  0 < d → (inject_Z s / inject_Z d <= 1)%Q ↔ s ≤ d.
Proof.
  intros Hd. destruct d as [|p|p]; try lia.
  unfold Qle, Qdiv, Qmult, Qinv, inject_Z. simpl. lia.
Qed.

Lemma confidence_pos (s d : Z) :
  0 < d → (0 < inject_Z s / inject_Z d)%Q ↔ 0 < s.
Proof.
  intros Hd. destruct d as [|p|p]; try lia.
  unfold Qlt, Qdiv, Qmult, Qinv, inject_Z. simpl. lia.
Qed.

Lemma rule_step_inr a thr X sup acc A ak d :
  antecedent_key A = inr ak → a !! ak = Some d → d ≠ 0 →
  rule_step a thr X sup acc A = inr (acc ++ emit thr X sup A d).
Proof.
  intros Hk Hd Hz. unfold rule_step, emit, getitem, truediv. rewrite Hk. simpl.
  rewrite Hd. simpl. rewrite decide_False by done. simpl.
  destruct (Qgtb _ _); [done|by rewrite app_nil_r].
Qed.

Lemma rule_step_inl a thr X sup acc A e :
  rule_step a thr X sup acc A = inl e →
  antecedent_key A = inl e ∨
  ∃ ak, antecedent_key A = inr ak ∧
        ((a !! ak = None ∧ e = KeyError ak) ∨
         (a !! ak = Some 0 ∧ e = ZeroDivisionError)).
Proof.
  unfold rule_step, getitem, truediv.
  destruct (antecedent_key A) as [e'|ak]; simpl; [intros [= <-]; by left|].
  intros H. right. exists ak. split; [done|].
  destruct (a !! ak) as [d|]; simpl in H.
  - case_decide; simplify_eq/=. by right.
  - simplify_eq. by left.
Qed.

Section for_each.
Context {A S : Type}.
Implicit Types (l : list A) (body : S → A → error + S).

Lemma for_each_inl l body s e :
  for_each l body s = inl e → ∃ s' x, x ∈ l ∧ body s' x = inl e.
Proof.
  revert s. induction l as [|x l IH]; intros s; simpl; [done|].
  destruct (body s x) as [e'|s'] eqn:Hb; simpl.
  - intros [= <-]. exists s, x. split; [left|done].
  - intros (s'' & y & Hy & Hb')%IH. exists s'', y. split; [by right|done].
Qed.
End for_each.

Lemma for_each_emit {A B} (l : list A) (body : list B → A → error + list B)
    (f : A → list B) (s : list B) :
  (∀ s x, x ∈ l → body s x = inr (s ++ f x)) →
  for_each l body s = inr (s ++ l ≫= f).
Proof.
  revert s. induction l as [|x l IH]; intros s Hb.
  - simpl. by rewrite app_nil_r.
  - rewrite bind_cons. cbn [for_each]. rewrite Hb by left. cbn [bind].
    rewrite IH; [by rewrite app_assoc|].
    intros s' y Hy. apply Hb. by right.
Qed.

Lemma antecedent_support_Some a A d :
  antecedent_support a A = Some d ↔
    ∃ ak, antecedent_key A = inr ak ∧ a !! ak = Some d.
Proof.
  unfold antecedent_support. destruct (antecedent_key A) as [e|ak].
  - split; [done|]. by intros (? & [=] & _).
  - split; [by exists ak|]. by intros (? & [= <-] & ?).
Qed.

Lemma elem_of_enumeration κ i :
  i ∈ seq 1 (length (key_seq κ) - 1) ↔ (1 ≤ i < length (key_seq κ))%nat.
Proof. rewrite elem_of_seq. lia. Qed.

Lemma generate_association_rules_inr a g thr :
  miner_ready a g →
  generate_association_rules a g thr =
    inr (map_to_list g ≫= λ '(κ, sup), rules_of a thr κ sup).
Proof.
  intros Hready. unfold generate_association_rules.
  rewrite (for_each_emit _ _ (λ '(κ, sup), rules_of a thr κ sup)); [done|].
  intros s [κ sup] Hκ%elem_of_map_to_list. unfold rules_of.
  apply for_each_emit. intros s' i Hi%elem_of_enumeration.
  apply for_each_emit. intros s'' A HA.
  destruct (Hready κ sup A) as (d & Hd & Hz); [split; eauto|].
  rewrite Hd. simpl.
  apply antecedent_support_Some in Hd as (ak & Hak & Hd).
  by eapply rule_step_inr.
Qed.

Lemma elem_of_rules a g thr r :
  r ∈ (map_to_list g ≫= λ '(κ, sup), rules_of a thr κ sup) ↔
    ∃ κ sup A d,
      enumerated g κ sup A ∧ antecedent_support a A = Some d ∧
      (thr < inject_Z sup / inject_Z d)%Q ∧
      r = Rule (list_to_set A) (list_to_set (key_seq κ) ∖ list_to_set A)
               sup (inject_Z sup / inject_Z d).
Proof.
  rewrite list_elem_of_bind. split.
  - intros ([κ sup] & Hr & Hκ%elem_of_map_to_list).
    unfold rules_of in Hr.
    apply list_elem_of_bind in Hr as (i & Hr & Hi%elem_of_enumeration).
    apply list_elem_of_bind in Hr as (A & Hr & HA).
    destruct (antecedent_support a A) as [d|] eqn:Hd; simpl in Hr;
      [|by apply elem_of_nil in Hr].
    unfold emit in Hr.
    destruct (Qgtb _ thr) eqn:Hq; [|by apply elem_of_nil in Hr].
    apply list_elem_of_singleton in Hr as ->. apply Qgtb_lt in Hq.
    exists κ, sup, A, d. split_and!; try done. split; eauto.
  - intros (κ & sup & A & d & [Hκ (i & Hi & HA)] & Hd & Hq & ->).
    exists (κ, sup). split; [|by apply elem_of_map_to_list].
    unfold rules_of. apply list_elem_of_bind. exists i.
    split; [|by apply elem_of_enumeration].
    apply list_elem_of_bind. exists A. split; [|done].
    rewrite Hd. simpl. unfold emit.
    apply Qgtb_lt in Hq. rewrite Hq. by left.
Qed.

Lemma generate_association_rules_inl a g thr e :
  generate_association_rules a g thr = inl e →
  ∃ κ sup A acc,
    enumerated g κ sup A ∧
    rule_step a thr (key_seq κ) sup acc A = inl e.
Proof.
  unfold generate_association_rules.
  intros (s & [κ sup] & Hκ%elem_of_map_to_list & H)%for_each_inl.
  apply for_each_inl in H as (s' & i & Hi%elem_of_enumeration & H).
  apply for_each_inl in H as (acc & A & HA & H).
  exists κ, sup, A, acc. split; [split; eauto|done].
Qed.

(** ** The whole pipeline *)

Section pipeline.
Variable rows : list (list item).

Local Abbreviation c_1 := (generate_all_single_candidates rows).1.
Local Abbreviation all_baskets := (generate_all_single_candidates rows).2.

Lemma pipeline_c_1 : c_1 = foldl increment ∅ (KItem <$> mjoin rows).
Proof.
  by rewrite generate_all_single_candidates_tally.
Qed.

Lemma pipeline_baskets : all_baskets = list_to_set <$> rows.
Proof.
  by rewrite generate_all_single_candidates_tally.
Qed.

(** The count of a token is the number of its occurrences in the file. *)
Lemma lookup_c_1 κ n :
  c_1 !! κ = Some n ↔
    n = Z.of_nat (occurrences κ (KItem <$> mjoin rows)) ∧ 1 ≤ n.
Proof.
  rewrite pipeline_c_1, lookup_foldl_increment. unfold cnt.
  rewrite lookup_empty. simpl. case_decide as H0.
  - rewrite H0. split; [done|]. intros [-> ?]. lia.
  - split; [intros [= <-]; lia|]. by intros [-> _].
Qed.

Lemma c_1_positive : positive_table c_1.
Proof. rewrite pipeline_c_1. apply foldl_increment_positive. Qed.

(** A token occurs at least as often as there are baskets holding it. *)
Lemma occurrences_ge_support x :
  support_count all_baskets [x]
  ≤ Z.of_nat (occurrences (KItem x) (KItem <$> mjoin rows)).
Proof.
  rewrite pipeline_baskets. unfold support_count. apply inj_le.
  induction rows as [|row rs IH]; [done|].
  rewrite fmap_cons, filter_cons. simpl mjoin.
  rewrite fmap_app, occurrences_app.
  case_decide as Hsub; [|etrans; [apply IH|lia]]. simpl.
  enough (1 ≤ occurrences (KItem x) (KItem <$> row))%nat as Hrow
    by (apply le_n_S in IH; etrans; [apply IH|lia]).
  assert (x ∈ row) as Hx.
  { apply (elem_of_list_to_set (C := basket)), Hsub.
    apply elem_of_list_to_set. left. }
  apply occurrences_pos, list_elem_of_fmap. eauto.
Qed.

(** With more fuel than the largest basket has items, the driver returns
    and every antecedent the miner enumerates has a support that is at
    least the support of its itemset. *)
Lemma pipeline_ready fuel support :
  (max_basket_size all_baskets < fuel)%nat →
  ∃ a g k',
    apriori_levels fuel all_baskets support c_1 = Some (a, g, k') ∧
    ∀ κ sup A, enumerated g κ sup A →
      ∃ d, antecedent_support a A = Some d ∧ 1 ≤ sup ∧ sup ≤ d.
Proof.
  intros Hf.
  destruct (apriori_levels_terminates all_baskets support c_1 fuel Hf)
    as [[[a g] k'] Hrun].
  exists a, g, k'. split; [done|].
  intros κ sup A [Hκ (i & Hi & HA)].
  destruct (apriori_above_one _ _ _ _ _ _ _ _ _ Hrun Hκ)
    as (X & -> & HlenX & _ & Hsup & Hpos & _).
  simpl in Hi, HA.
  destruct (apriori_antecedent _ _ _ _ _ _ _ _ _ _ _ Hrun Hκ Hi HA)
    as (ak & d & Hak & Hd & _ & Hshape).
  exists d. split; [apply antecedent_support_Some; eauto|].
  split; [done|].
  destruct Hshape as [(x & -> & -> & Hx & Hc)|(_ & _ & _ & ?)]; [|done].
  apply lookup_c_1 in Hc as [-> _]. subst sup.
  etrans; [|apply occurrences_ge_support].
  apply support_count_anti. by intros y ->%list_elem_of_singleton.
Qed.
End pipeline.

(** ** Helper facts for the main results *)

Lemma cnt_foldl_increment l c κ :
  cnt (foldl increment c l) κ = cnt c κ + Z.of_nat (occurrences κ l).
Proof.
  unfold cnt at 1. rewrite lookup_foldl_increment.
  case_decide as H0; simpl; [|done]. rewrite H0. unfold cnt. lia.
Qed.

Lemma generate_next_candidates_snoc all_baskets (l_1 : table) k b :
  generate_next_candidates (all_baskets ++ [b]) l_1 k =
    foldl increment (generate_next_candidates all_baskets l_1 k)
          (basket_keys l_1 k b).
Proof.
  unfold generate_next_candidates. rewrite foldl_snoc.
  by rewrite count_basket_tally.
Qed.

Lemma generate_next_candidates_positive all_baskets (l_1 : table) k :
  positive_table (generate_next_candidates all_baskets l_1 k).
Proof.
  rewrite generate_next_candidates_tally. apply foldl_increment_positive.
Qed.



Lemma antecedent_key_itemset_key A ak :
  antecedent_key A = inr ak → ak = itemset_key A.
Proof.
  unfold antecedent_key. case_decide as Hlen.
  - intros [= <-]. destruct A as [|? [|??]]; simpl in *; (done || lia).
  - destruct A as [|x [|??]]; simpl in *; try done; try lia. by intros [= <-].
Qed.


Lemma apriori_of_levels fuel all_baskets support (c_1 : table) a g k' :
  apriori_levels fuel all_baskets support c_1 = Some (a, g, k') →
  apriori fuel all_baskets support c_1 = Some (a, g).
Proof. unfold apriori. by intros ->. Qed.

(** On the output of the pipeline the miner returns its list of rules. *)
Lemma pipeline_mined rows fuel support thr :
  (max_basket_size (generate_all_single_candidates rows).2 < fuel)%nat →
  ∃ a g k',
    apriori_levels fuel (generate_all_single_candidates rows).2 support
      (generate_all_single_candidates rows).1 = Some (a, g, k') ∧
    (∀ κ sup A, enumerated g κ sup A →
       ∃ d, antecedent_support a A = Some d ∧ 1 ≤ sup ∧ sup ≤ d) ∧
    generate_association_rules a g thr =
      inr (map_to_list g ≫= λ '(κ, sup), rules_of a thr κ sup).
Proof.
  intros Hf. destruct (pipeline_ready rows fuel support Hf)
    as (a & g & k' & Hrun & Hready).
  exists a, g, k'. split_and!; [done..|].
  apply generate_association_rules_inr. intros κ sup A Hen.
  destruct (Hready _ _ _ Hen) as (d & Hd & ? & ?).
  exists d. split; [done|lia].
Qed.



(** The result of the driver does not depend on the fuel, once there is
    enough of it. *)
Lemma apriori_fuel_independent all_baskets support (c_1 : table) fuel fuel' :
  (max_basket_size all_baskets < fuel)%nat →
  (max_basket_size all_baskets < fuel')%nat →
  apriori fuel all_baskets support c_1 = apriori fuel' all_baskets support c_1.
Proof.
  intros Hf Hf'. unfold apriori.
  destruct (apriori_levels_terminates all_baskets support c_1
              (fuel `min` fuel')) as [r Hr]; [lia|].
  unfold apriori_levels in *.
  rewrite (apriori_loop_fuel_mono _ _ _ _ fuel _ _ _ _ r (Nat.le_min_l _ _) Hr).
  by rewrite (apriori_loop_fuel_mono _ _ _ _ fuel' _ _ _ _ r
                (Nat.le_min_r _ _) Hr).
Qed.

(** * Main results *)

(** ** Level-1 Counter *)

(** C1, on the code: the Level-1 Counter increments the count of an item
    once per token of the row, so the one-row file ["a a"] gives item "a" the
    count 2 although a single basket contains it. *)
Theorem counter_counts_repeated_token_twice :
  (generate_all_single_candidates [["a"; "a"]]).1 !! KItem "a" = Some 2 ∧
  (generate_all_single_candidates [["a"; "a"]]).2 = [{["a"]}] ∧
  support_count (generate_all_single_candidates [["a"; "a"]]).2 ["a"] = 1.
Proof.
  split_and!.
  - apply lookup_c_1. by vm_compute.
  - rewrite pipeline_baskets. simpl. f_equal; set_solver.
  - rewrite pipeline_baskets. unfold support_count. simpl.
    rewrite filter_cons_True; [done|]. set_solver.
Qed.

(** ** Support Filter *)

(** C3: an (itemset, count) pair is in the output of [filter_candidates]
    exactly when it is in the candidate table and its count is strictly
    greater than the threshold; the count is the one of the input. *)
Theorem filter_candidates_strict (c_k : table) (support : Z) (κ : key) (n : Z) :
  filter_candidates c_k support !! κ = Some n ↔
    c_k !! κ = Some n ∧ n > support.
Proof. apply lookup_filter_candidates. Qed.

(** ** Candidate Generator *)

(** C5: for every size [k] (in particular [k >= 2]), the keys of the table
    of [generate_next_candidates] are exactly the ascending [k]-tuples of
    distinct level-1 frequent items that are together in some basket, each
    with the number of baskets containing all its items; one more basket
    adds at most 1 to a count. *)
Theorem generate_next_candidates_counts
    (all_baskets : list basket) (l_1 : table) (k : nat) :
  (∀ κ n,
     generate_next_candidates all_baskets l_1 k !! κ = Some n ↔
       ∃ t, κ = KTuple t ∧ length t = k ∧ StronglySorted item_lt t ∧
            (∀ i, i ∈ t → is_Some (l_1 !! KItem i)) ∧
            n = support_count all_baskets t ∧ 1 ≤ n) ∧
  (∀ b κ,
     let before := cnt (generate_next_candidates all_baskets l_1 k) κ in
     let after := cnt (generate_next_candidates (all_baskets ++ [b]) l_1 k) κ in
     after = before ∨ after = before + 1).
Proof.
  split.
  - intros κ n. rewrite lookup_generate_next_candidates. unfold canonical.
    split; intros (t & ? & ?); exists t; tauto.
  - intros b κ. simpl.
    rewrite generate_next_candidates_snoc, cnt_foldl_increment.
    rewrite occurrences_NoDup by apply NoDup_basket_keys.
    case_decide; [right|left]; simpl; lia.
Qed.

(** C8: every combination the generator enumerates for a basket is made of
    items of that basket, so its subset test always succeeds, and the
    generator without the test returns the same table. *)
Theorem subset_check_redundant (all_baskets : list basket) (l_1 : table)
    (k : nat) :
  (∀ b tup,
     tup ∈ combinations (sorted_list (set_inter (dom l_1) b)) k →
     (list_to_set tup : basket) ⊆ b) ∧
  generate_next_candidates_unchecked all_baskets l_1 k =
    generate_next_candidates all_baskets l_1 k.
Proof.
  split; [intros b tup; apply combination_subseteq_basket|].
  unfold generate_next_candidates_unchecked, generate_next_candidates.
  generalize (∅ : table).
  induction all_baskets as [|b bs IH]; intros c; simpl; [done|].
  rewrite IH. f_equal.
  unfold count_basket_unchecked, count_basket.
  pose proof (combination_subseteq_basket l_1 k b) as Hsub. revert c Hsub.
  generalize (combinations (sorted_list (set_inter (dom l_1) b)) k).
  intros cands. induction cands as [|tup cands IHc]; intros c Hsub; [done|].
  simpl. rewrite decide_True by (apply Hsub; left).
  apply IHc. intros t Ht. apply Hsub. by right.
Qed.

(** ** Order of the baskets *)



(** ** Apriori Driver *)

(** C6, as the code has it: given more fuel than the largest basket has
    items, the loop of [apriori] returns.  It stops at the first empty
    frequent table; when the level-1 frequent table is empty it returns two
    empty tables without computing a level.  No table of a level above the
    size of the largest basket is populated, and the last level the loop
    computes, the empty one, is at most one above that size (or level 2). *)
Theorem apriori_terminates (all_baskets : list basket) (support : Z)
    (c_1 : table) (fuel : nat) :
  (max_basket_size all_baskets < fuel)%nat →
  ∃ a g k',
    apriori_levels fuel all_baskets support c_1 = Some (a, g, k') ∧
    apriori fuel all_baskets support c_1 = Some (a, g) ∧
    (filter_candidates c_1 support = ∅ → a = ∅ ∧ g = ∅ ∧ k' = 2%nat) ∧
    (filter_candidates c_1 support ≠ ∅ →
       (2 < k')%nat ∧
       level all_baskets support (filter_candidates c_1 support) (k' - 1) = ∅) ∧
    (∀ j, (2 ≤ j)%nat → (S j < k')%nat →
       level all_baskets support (filter_candidates c_1 support) j ≠ ∅) ∧
    (∀ j, level all_baskets support (filter_candidates c_1 support) j ≠ ∅ →
       (j ≤ max_basket_size all_baskets)%nat) ∧
    (k' - 1 ≤ 2 `max` (max_basket_size all_baskets + 1))%nat.
Proof.
  intros Hf.
  destruct (apriori_levels_terminates all_baskets support c_1 fuel Hf)
    as [[[a g] k'] Hrun].
  exists a, g, k'.
  pose proof (apriori_levels_result _ _ _ _ _ _ _ Hrun)
    as (Hk & Hstop & Hgo & Hmid & Ha & Hg).
  split_and!; try done.
  - by apply apriori_of_levels in Hrun.
  - intros He. specialize (Hstop He). subst k'. split_and!; [| |done].
    + apply map_empty. intros κ. apply eq_None_not_Some. intros [n Hn].
      apply Ha in Hn as [(j & ? & _)|[Hn _]]; [lia|].
      by rewrite He, lookup_empty in Hn.
    + apply map_empty. intros κ. apply eq_None_not_Some. intros [n Hn].
      apply Hg in Hn as (j & ? & _). lia.
  - apply level_nonempty_bound.
  - destruct (decide (k' ≤ 3)%nat) as [|Hbig]; [lia|].
    assert (k' - 2 ≤ max_basket_size all_baskets)%nat; [|lia].
    apply (level_nonempty_bound _ support (filter_candidates c_1 support)).
    apply Hmid; lia.
Qed.

Lemma apriori_terminates_witness :
  (max_basket_size [{["a"; "b"]}; {["a"]}] < 3)%nat ∧
  ∃ a g k',
    apriori_levels 3 [{["a"; "b"]}; {["a"]}] 0
      {[KItem "a" := 2; KItem "b" := 1]} = Some (a, g, k') ∧
    apriori 3 [{["a"; "b"]}; {["a"]}] 0
      {[KItem "a" := 2; KItem "b" := 1]} = Some (a, g).
Proof.
  assert (max_basket_size [{["a"; "b"]}; {["a"]}] < 3)%nat as Hf
    by (vm_compute; lia).
  split; [exact Hf|].
  destruct (apriori_terminates [{["a"; "b"]}; {["a"]}] 0
              {[KItem "a" := 2; KItem "b" := 1]} 3 Hf)
    as (a & g & k' & Hl & Ha & _).
  exists a, g, k'. exact (conj Hl Ha).
Defined.

(** C6 as stated fails on the one-row file ["x"] with support 0: the
    largest basket has one item, yet the loop computes level 2 and leaves
    with [k = 3]. *)
Lemma level_index_passes_basket_size :
  ∃ a g k',
    apriori_levels 2 (generate_all_single_candidates [["x"]]).2 0
      (generate_all_single_candidates [["x"]]).1 = Some (a, g, k') ∧
    k' = 3%nat ∧
    max_basket_size (generate_all_single_candidates [["x"]]).2 = 1%nat ∧
    ¬ (k' - 1 ≤ max_basket_size (generate_all_single_candidates [["x"]]).2)%nat.
Proof.
  eexists _, _, _. split_and!.
  - vm_compute. reflexivity.
  - reflexivity.
  - vm_compute. reflexivity.
  - vm_compute. lia.
Qed.

(** C2: every itemset of the table of the itemsets of size at least two is
    a tuple of at least two items, and each of its non-empty proper
    sub-combinations is a key of the table of all frequent itemsets, under
    the key of the rule miner (the bare item for one item, the ascending
    tuple otherwise), with a count above the threshold; so no lookup of the
    miner raises [KeyError]. *)
Theorem antecedents_are_frequent (all_baskets : list basket) (support : Z)
    (c_1 : table) (fuel : nat) :
  (max_basket_size all_baskets < fuel)%nat →
  ∃ a g,
    apriori fuel all_baskets support c_1 = Some (a, g) ∧
    (∀ κ sup, g !! κ = Some sup →
       ∃ X, κ = KTuple X ∧ (2 ≤ length X)%nat ∧ sup > support ∧
         ∀ i A, (1 ≤ i < length X)%nat → A ∈ combinations X i →
           ∃ d, a !! itemset_key A = Some d ∧ d > support ∧
                antecedent_key A = inr (itemset_key A) ∧
                StronglySorted item_lt A) ∧
    (∀ conf_threshold κ,
       generate_association_rules a g conf_threshold ≠ inl (KeyError κ)).
Proof.
  intros Hf.
  destruct (apriori_levels_terminates all_baskets support c_1 fuel Hf)
    as [[[a g] k'] Hrun].
  exists a, g. split; [by apply apriori_of_levels in Hrun|].
  assert (∀ X sup i A, g !! KTuple X = Some sup →
            (1 ≤ i < length X)%nat → A ∈ combinations X i →
            ∃ d, a !! itemset_key A = Some d ∧ d > support ∧
                 antecedent_key A = inr (itemset_key A)) as Hant.
  { intros X sup i A Hg Hi HA.
    destruct (apriori_antecedent _ _ _ _ _ _ _ _ _ _ _ Hrun Hg Hi HA)
      as (ak & d & Hak & Hd & Hgt & _).
    pose proof (antecedent_key_itemset_key _ _ Hak) as ->. eauto. }
  split.
  - intros κ sup Hg.
    destruct (apriori_above_one _ _ _ _ _ _ _ _ _ Hrun Hg)
      as (X & -> & HlenX & (_ & HsX & _) & _ & _ & Hfreq).
    exists X. split_and!; [done|lia|done|].
    intros i A Hi HA. destruct (Hant X sup i A Hg Hi HA) as (d & ? & ? & ?).
    exists d. split_and!; try done.
    eapply StronglySorted_sublist; [|done]. by eapply combinations_sublist.
  - intros thr κ Herr.
    apply generate_association_rules_inl
      in Herr as (κ' & sup & A & acc & [Hg (i & Hi & HA)] & Hstep).
    destruct (apriori_above_one _ _ _ _ _ _ _ _ _ Hrun Hg) as (X & -> & _).
    simpl in Hi, HA.
    destruct (Hant X sup i A Hg Hi HA) as (d & Hd & _ & Hak).
    apply rule_step_inl in Hstep as [Hk|(ak & Hk & [[Hn _]|[_ ?]])];
      [congruence| |done].
    rewrite Hak in Hk. injection Hk as <-. congruence.
Qed.

Lemma antecedents_are_frequent_witness :
  (max_basket_size [{["a"; "b"]}; {["a"]}] < 3)%nat ∧
  ∃ a g,
    apriori 3 [{["a"; "b"]}; {["a"]}] 0
      {[KItem "a" := 2; KItem "b" := 1]} = Some (a, g) ∧
    ∀ conf_threshold κ,
      generate_association_rules a g conf_threshold ≠ inl (KeyError κ).
Proof.
  assert (max_basket_size [{["a"; "b"]}; {["a"]}] < 3)%nat as Hf
    by (vm_compute; lia).
  split; [exact Hf|].
  destruct (antecedents_are_frequent [{["a"; "b"]}; {["a"]}] 0
              {[KItem "a" := 2; KItem "b" := 1]} 3 Hf)
    as (a & g & Ha & _ & Herr).
  exists a, g. exact (conj Ha Herr).
Defined.

(** ** Rule Miner *)



(** C7: the miner takes any threshold.  On the tables computed from a
    corpus every confidence it computes is in (0, 1]; so a threshold of at
    least 1 gives no rule and a threshold of at most 0 gives the rule of
    every enumerated antecedent. *)
Theorem threshold_out_of_range (rows : list (list item)) (support : Z)
    (conf_threshold : Q) (fuel : nat) :
  (max_basket_size (generate_all_single_candidates rows).2 < fuel)%nat →
  ∃ a g rules,
    apriori fuel (generate_all_single_candidates rows).2 support
      (generate_all_single_candidates rows).1 = Some (a, g) ∧
    generate_association_rules a g conf_threshold = inr rules ∧
    (∀ κ sup A, enumerated g κ sup A →
       ∃ d, antecedent_support a A = Some d ∧
            (0 < inject_Z sup / inject_Z d)%Q ∧
            (inject_Z sup / inject_Z d <= 1)%Q) ∧
    ((1 <= conf_threshold)%Q → rules = []) ∧
    ((conf_threshold <= 0)%Q →
       ∀ κ sup A d, enumerated g κ sup A → antecedent_support a A = Some d →
         Rule (list_to_set A) (list_to_set (key_seq κ) ∖ list_to_set A) sup
              (inject_Z sup / inject_Z d) ∈ rules).
Proof.
  intros Hf.
  destruct (pipeline_mined rows fuel support conf_threshold Hf)
    as (a & g & k' & Hrun & Hready & Hrules).
  assert (∀ κ sup A, enumerated g κ sup A →
            ∃ d, antecedent_support a A = Some d ∧
                 (0 < inject_Z sup / inject_Z d)%Q ∧
                 (inject_Z sup / inject_Z d <= 1)%Q) as Hconf.
  { intros κ sup A Hen. destruct (Hready _ _ _ Hen) as (d & Hd & Hsup & Hle).
    exists d. split_and!; [done| |].
    - apply confidence_pos; lia.
    - apply confidence_le_1; lia. }
  exists a, g. eexists.
  split_and!; [by apply apriori_of_levels in Hrun|exact Hrules|done| |].
  - intros Hthr. apply elem_of_nil_inv. intros r.
    intros (κ & sup & A & d & Hen & Hd & Hq & _)%elem_of_rules.
    destruct (Hconf _ _ _ Hen) as (d' & Hd' & _ & Hle).
    rewrite Hd in Hd'. injection Hd' as <-.
    apply (Qlt_irrefl 1).
    eapply Qle_lt_trans; [exact Hthr|]. eapply Qlt_le_trans; [exact Hq|done].
  - intros Hthr κ sup A d Hen Hd. apply elem_of_rules.
    exists κ, sup, A, d. split_and!; try done.
    destruct (Hconf _ _ _ Hen) as (d' & Hd' & Hpos & _).
    rewrite Hd in Hd'. injection Hd' as <-.
    eapply Qle_lt_trans; [exact Hthr|done].
Qed.

Lemma threshold_out_of_range_witness :
  (max_basket_size (generate_all_single_candidates [["a"; "b"]; ["a"]]).2
   < 3)%nat ∧
  ∃ a g rules,
    apriori 3 (generate_all_single_candidates [["a"; "b"]; ["a"]]).2 0
      (generate_all_single_candidates [["a"; "b"]; ["a"]]).1 = Some (a, g) ∧
    generate_association_rules a g 1 = inr rules ∧
    ((1 <= 1)%Q → rules = []).
Proof.
  assert (max_basket_size
            (generate_all_single_candidates [["a"; "b"]; ["a"]]).2 < 3)%nat
    as Hf by (vm_compute; lia).
  split; [exact Hf|].
  destruct (threshold_out_of_range [["a"; "b"]; ["a"]] 0 1 3 Hf)
    as (a & g & rules & Ha & Hr & _ & Hnil & _).
  exists a, g, rules. exact (conj Ha (conj Hr Hnil)).
Defined.

(** C10: every count of the level-1 table and of every candidate table is
    at least 1, hence so is every count of the two tables of the driver;
    every support the miner divides by is at least 1 and the miner does not
    raise [ZeroDivisionError]. *)
Theorem counts_are_positive (rows : list (list item)) (support : Z)
    (conf_threshold : Q) (fuel : nat) :
  (max_basket_size (generate_all_single_candidates rows).2 < fuel)%nat →
  positive_table (generate_all_single_candidates rows).1 ∧
  (∀ (l_1 : table) k,
     positive_table
       (generate_next_candidates (generate_all_single_candidates rows).2
          l_1 k)) ∧
  ∃ a g,
    apriori fuel (generate_all_single_candidates rows).2 support
      (generate_all_single_candidates rows).1 = Some (a, g) ∧
    positive_table a ∧ positive_table g ∧
    (∀ κ sup A, enumerated g κ sup A →
       ∃ d, antecedent_support a A = Some d ∧ 1 ≤ d) ∧
    generate_association_rules a g conf_threshold ≠ inl ZeroDivisionError.
Proof.
  intros Hf. split; [apply c_1_positive|].
  split; [intros l_1 k; apply generate_next_candidates_positive|].
  destruct (pipeline_mined rows fuel support conf_threshold Hf)
    as (a & g & k' & Hrun & Hready & Hrules).
  exists a, g.
  pose proof (apriori_levels_result _ _ _ _ _ _ _ Hrun)
    as (_ & _ & _ & _ & Ha & Hg).
  assert (∀ j κ n,
    level (generate_all_single_candidates rows).2 support
      (filter_candidates (generate_all_single_candidates rows).1 support) j
      !! κ = Some n → 1 ≤ n) as Hlevel.
  { intros j κ n (t & _ & _ & _ & ? & _)%lookup_level. done. }
  split_and!.
  - by apply apriori_of_levels in Hrun.
  - intros κ n [(j & _ & Hl)|[Hl _]]%Ha; [by eapply Hlevel|].
    apply lookup_filter_candidates in Hl as [Hl _].
    by eapply c_1_positive.
  - intros κ n (j & _ & Hl)%Hg. by eapply Hlevel.
  - intros κ sup A Hen. destruct (Hready _ _ _ Hen) as (d & Hd & ? & ?).
    exists d. split; [done|lia].
  - by rewrite Hrules.
Qed.

Lemma counts_are_positive_witness :
  (max_basket_size (generate_all_single_candidates [["a"; "b"]; ["a"]]).2
   < 3)%nat ∧
  positive_table (generate_all_single_candidates [["a"; "b"]; ["a"]]).1.
Proof.
  assert (max_basket_size
            (generate_all_single_candidates [["a"; "b"]; ["a"]]).2 < 3)%nat
    as Hf by (vm_compute; lia).
  split; [exact Hf|].
  exact (proj1 (counts_are_positive [["a"; "b"]; ["a"]] 0 (1 # 2) 3 Hf)).
Defined.

(** ** Scenarios *)

(** Support 1: "c" is dropped at level 1, the pair ("a", "b") is frequent,
    and both of its rules pass the confidence threshold 1/2. *)
Example scenario_support_1 :
  mine 3 corpus 1 (1 # 2) =
    Some ({[ KItem "a" := 3; KItem "b" := 2; KTuple ["a"; "b"] := 2 ]},
          inr [ Rule {["a"]} {["b"]} 2 (2 # 3);
                Rule {["b"]} {["a"]} 2 (2 # 2) ]).
Proof. vm_compute. reflexivity. Qed.

(** Support 2: only "a" is frequent and no rule is emitted. *)
Example scenario_support_2 :
  mine 3 corpus 2 (1 # 2) = Some ({[ KItem "a" := 3 ]}, inr []).
Proof. vm_compute. reflexivity. Qed.

(** An empty basket is harmless. *)
Example scenario_empty_basket :
  mine 3 [[]; ["x"]] 0 (1 # 2) = Some ({[ KItem "x" := 1 ]}, inr []).
Proof. vm_compute. reflexivity. Qed.

(** Without fuel the loop does not return when level 1 is populated. *)
Example scenario_no_fuel : apriori 0 [{["x"]}] 0 {[ KItem "x" := 1 ]} = None.
Proof. vm_compute. reflexivity. Qed.

(** Items are ordered as strings: "10" comes before "9". *)
Example scenario_string_order :
  generate_next_candidates [{["9"; "10"]}] {[ KItem "9" := 1; KItem "10" := 1 ]} 2
    !! KTuple ["10"; "9"] = Some 1.
Proof. vm_compute. reflexivity. Qed.

(** A row that repeats a token: "a" is counted twice at level 1, so the
    rule from "a" to "b" gets the confidence 1/2 and is not emitted at the
    threshold 3/5, although the only basket holding "a" holds "b". *)
Example scenario_repeated_token :
  mine 2 [["a"; "a"; "b"]] 0 (3 # 5) =
    Some ({[ KItem "a" := 2; KItem "b" := 1; KTuple ["a"; "b"] := 1 ]},
          inr [ Rule {["b"]} {["a"]} 1 (1 # 1) ]).
Proof. vm_compute. reflexivity. Qed.

(** * Further properties of the code *)

(** ** Level-1 Counter *)

Lemma occurrences_KItem i (l : list item) :
  occurrences (KItem i) (KItem <$> l) = length (filter (λ x, x = i) l).
Proof.
  unfold occurrences. induction l as [|x l IH]; [done|].
  rewrite fmap_cons, !filter_cons.
  destruct (decide (x = i)) as [->|Hne].
  - rewrite decide_True by done. simpl. by rewrite IH.
  - rewrite decide_False by (by intros [=]). done.
Qed.

Lemma occurrences_KTuple_items t (l : list item) :
  occurrences (KTuple t) (KItem <$> l) = 0%nat.
Proof.
  unfold occurrences. induction l as [|x l IH]; [done|].
  rewrite fmap_cons, filter_cons. by rewrite decide_False by done.
Qed.

Lemma lookup_c_1_item rows i n :
  (generate_all_single_candidates rows).1 !! KItem i = Some n ↔
    n = token_count rows i ∧ 1 ≤ n.
Proof. unfold token_count. by rewrite lookup_c_1, occurrences_KItem. Qed.

Lemma lookup_c_1_tuple rows t :
  (generate_all_single_candidates rows).1 !! KTuple t = None.
Proof.
  apply eq_None_not_Some. intros [n Hn].
  apply lookup_c_1 in Hn as [-> Hn].
  rewrite occurrences_KTuple_items in Hn. lia.
Qed.

Lemma token_count_ge_support rows i :
  support_count (generate_all_single_candidates rows).2 [i]
  ≤ token_count rows i.
Proof.
  unfold token_count. rewrite <-occurrences_KItem.
  apply occurrences_ge_support.
Qed.

Lemma token_count_pos rows i :
  1 ≤ token_count rows i ↔
    ∃ b, b ∈ (generate_all_single_candidates rows).2 ∧ i ∈ b.
Proof.
  rewrite pipeline_baskets. unfold token_count. split.
  - intros Hpos.
    destruct (filter _ (mjoin rows)) as [|x l] eqn:E; [simpl in Hpos; lia|].
    assert (x ∈ filter (λ x, x = i) (mjoin rows)) as Hx by (rewrite E; left).
    apply list_elem_of_filter in Hx as [-> Hx].
    apply list_elem_of_join in Hx as (row & Hi & Hrow).
    exists (list_to_set row). split; [apply list_elem_of_fmap; eauto|].
    by apply elem_of_list_to_set.
  - intros (b & (row & -> & Hrow)%list_elem_of_fmap & Hi%elem_of_list_to_set).
    assert (i ∈ filter (λ x, x = i) (mjoin rows)) as Hin.
    { apply list_elem_of_filter. split; [done|].
      apply list_elem_of_join. eauto. }
    destruct (filter _ (mjoin rows)); [by apply elem_of_nil in Hin|].
    simpl. lia.
Qed.

(** X1: the Level-1 Counter returns the table that maps every token of
    the file to the number of its occurrences (and holds no other key),
    together with one basket per row, in the order of the rows, each the set
    of the tokens of its row. *)
Theorem counter_counts_tokens (rows : list (list item)) :
  (∀ κ n,
     (generate_all_single_candidates rows).1 !! κ = Some n ↔
       ∃ i, κ = KItem i ∧ n = token_count rows i ∧ 1 ≤ n) ∧
  (generate_all_single_candidates rows).2 = list_to_set <$> rows.
Proof.
  split; [|apply pipeline_baskets].
  intros [i|t] n.
  - rewrite lookup_c_1_item. split.
    + intros [-> ?]. by exists i.
    + by intros (i' & [= <-] & -> & ?).
  - rewrite lookup_c_1_tuple. split; [done|]. by intros (i & [=] & _).
Qed.



(** X3: the keys of the level-1 table are exactly the items that some
    basket contains. *)
Theorem counter_keys_are_basket_items (rows : list (list item)) (κ : key) :
  is_Some ((generate_all_single_candidates rows).1 !! κ) ↔
    ∃ i b, κ = KItem i ∧
           b ∈ (generate_all_single_candidates rows).2 ∧ i ∈ b.
Proof.
  destruct κ as [i|t].
  - split.
    + intros [n [-> Hpos]%lookup_c_1_item].
      apply token_count_pos in Hpos as (b & ? & ?). by exists i, b.
    + intros (i' & b & [= <-] & Hb & Hi).
      exists (token_count rows i). apply lookup_c_1_item.
      split; [done|]. apply token_count_pos. eauto.
  - rewrite lookup_c_1_tuple. split; [by intros [? ?]|].
    by intros (i & b & [=] & _).
Qed.

(** ** Support Filter *)

Lemma filter_candidates_lookup_None c_k support κ :
  filter_candidates c_k support !! κ = None ↔
    ∀ n, c_k !! κ = Some n → n ≤ support.
Proof.
  rewrite eq_None_not_Some. split.
  - intros Hn n Hc. destruct (decide (n ≤ support)) as [|Hgt]; [done|].
    destruct Hn. exists n. apply lookup_filter_candidates. split; [done|lia].
  - intros Hle [n [Hc Hgt]%lookup_filter_candidates].
    specialize (Hle n Hc). lia.
Qed.

(** X4: filtering twice is filtering once with the larger threshold; in
    particular the filter is idempotent. *)
Theorem filter_candidates_twice (c_k : table) (support support' : Z) :
  filter_candidates (filter_candidates c_k support) support'
  = filter_candidates c_k (Z.max support support') ∧
  filter_candidates (filter_candidates c_k support) support
  = filter_candidates c_k support.
Proof.
  assert (∀ s s', filter_candidates (filter_candidates c_k s) s'
                  = filter_candidates c_k (Z.max s s')) as Hmax.
  { intros s s'. apply map_eq. intros κ. apply option_eq. intros n.
    rewrite !lookup_filter_candidates. split.
    - intros [[? ?] ?]. split; [done|lia].
    - intros [? ?]. split_and!; [done|lia..]. }
  split; [apply Hmax|]. rewrite Hmax. by rewrite Z.max_id.
Qed.

(** X5: the output of the filter is part of its input, and raising the
    threshold only removes entries. *)
Theorem filter_candidates_antitone (c_k : table) (support support' : Z) :
  support ≤ support' →
  filter_candidates c_k support' ⊆ filter_candidates c_k support ∧
  filter_candidates c_k support ⊆ c_k.
Proof.
  intros Hle. split; apply map_subseteq_spec; intros κ n.
  - rewrite !lookup_filter_candidates. intros [? ?]. split; [done|lia].
  - rewrite lookup_filter_candidates. by intros [? _].
Qed.

Lemma filter_candidates_antitone_witness :
  1 ≤ 2 ∧
  filter_candidates {[KItem "a" := 3; KItem "b" := 2]} 2
  ⊆ filter_candidates {[KItem "a" := 3; KItem "b" := 2]} 1.
Proof.
  assert (1 ≤ 2) as Hle by lia.
  split; [exact Hle|].
  exact (proj1 (filter_candidates_antitone
                  {[KItem "a" := 3; KItem "b" := 2]} 1 2 Hle)).
Defined.

(** X6: the filter returns its input unchanged exactly when every count
    is above the threshold, and the empty table exactly when none is. *)
Theorem filter_candidates_all_or_nothing (c_k : table) (support : Z) :
  (filter_candidates c_k support = c_k ↔
     ∀ κ n, c_k !! κ = Some n → n > support) ∧
  (filter_candidates c_k support = ∅ ↔
     ∀ κ n, c_k !! κ = Some n → n ≤ support).
Proof.
  split.
  - split.
    + intros Heq κ n Hc. rewrite <-Heq in Hc.
      by apply lookup_filter_candidates in Hc as [_ ?].
    + intros Hall. apply map_eq. intros κ. apply option_eq. intros n.
      rewrite lookup_filter_candidates. split; [by intros [? _]|].
      intros Hc. split; [done|]. by eapply Hall.
  - rewrite map_empty. split.
    + intros Hnone κ. by apply filter_candidates_lookup_None.
    + intros Hall κ. apply filter_candidates_lookup_None. apply Hall.
Qed.

(** ** Candidate Generator *)

Lemma support_count_nil all_baskets :
  support_count all_baskets [] = Z.of_nat (length all_baskets).
Proof.
  unfold support_count. f_equal.
  induction all_baskets as [|b bs IH]; [done|].
  rewrite filter_cons_True by set_solver. cbn [length]. by rewrite IH.
Qed.

Lemma support_count_le_length all_baskets t :
  support_count all_baskets t ≤ Z.of_nat (length all_baskets).
Proof. unfold support_count. apply inj_le, length_filter. Qed.

Lemma support_count_app bs1 bs2 t :
  support_count (bs1 ++ bs2) t = support_count bs1 t + support_count bs2 t.
Proof. unfold support_count. rewrite filter_app, length_app. lia. Qed.

Lemma cnt_generate_next_candidates all_baskets (l_1 : table) k κ :
  cnt (generate_next_candidates all_baskets l_1 k) κ =
    Z.of_nat (occurrences κ (all_baskets ≫= basket_keys l_1 k)).
Proof.
  rewrite generate_next_candidates_tally, cnt_foldl_increment.
  unfold cnt. by rewrite lookup_empty.
Qed.

(** X7: the counts of the generator add up over a corpus cut in two: the
    count of a key for [bs1 ++ bs2] is the sum of its counts for [bs1] and
    for [bs2] (a key that is absent counting for 0), and no count exceeds
    the number of baskets. *)
Theorem generate_next_candidates_additive (bs1 bs2 : list basket)
    (l_1 : table) (k : nat) (κ : key) :
  cnt (generate_next_candidates (bs1 ++ bs2) l_1 k) κ
  = cnt (generate_next_candidates bs1 l_1 k) κ
    + cnt (generate_next_candidates bs2 l_1 k) κ ∧
  0 ≤ cnt (generate_next_candidates bs1 l_1 k) κ ≤ Z.of_nat (length bs1).
Proof.
  rewrite !cnt_generate_next_candidates, bind_app, occurrences_app.
  split; [lia|]. split; [lia|].
  destruct (generate_next_candidates bs1 l_1 k !! κ) as [n|] eqn:Hn.
  - pose proof Hn as (t & -> & _ & -> & _)%lookup_generate_next_candidates.
    rewrite <-cnt_generate_next_candidates. unfold cnt. rewrite Hn. simpl.
    apply support_count_le_length.
  - rewrite <-cnt_generate_next_candidates. unfold cnt. rewrite Hn. simpl. lia.
Qed.

(** X8: the generator reads only the keys of the level-1 table, and a
    level-1 table with more keys gives a table with more entries and the
    same counts. *)
Theorem generate_next_candidates_mono (all_baskets : list basket)
    (l_1 l_1' : table) (k : nat) :
  dom l_1 ⊆ dom l_1' →
  generate_next_candidates all_baskets l_1 k
  ⊆ generate_next_candidates all_baskets l_1' k.
Proof.
  intros Hdom. apply map_subseteq_spec. intros κ n.
  rewrite !lookup_generate_next_candidates.
  intros (t & -> & (Hlen & Hs & Hin) & Hn & Hpos). exists t.
  split; [done|]. split; [|done]. split_and!; [done..|].
  intros i Hi. apply elem_of_dom, Hdom, elem_of_dom. by apply Hin.
Qed.

Lemma generate_next_candidates_mono_witness :
  dom ({[KItem "a" := 1]} : table)
    ⊆ dom ({[KItem "a" := 5; KItem "b" := 7]} : table) ∧
  generate_next_candidates [{["a"; "b"]}] {[KItem "a" := 1]} 1
  ⊆ generate_next_candidates [{["a"; "b"]}]
      {[KItem "a" := 5; KItem "b" := 7]} 1.
Proof.
  assert (dom ({[KItem "a" := 1]} : table)
            ⊆ dom ({[KItem "a" := 5; KItem "b" := 7]} : table)) as Hdom.
  { refine (bool_decide_unpack _ _). vm_compute. exact I. }
  split; [exact Hdom|].
  exact (generate_next_candidates_mono [{["a"; "b"]}] {[KItem "a" := 1]}
           {[KItem "a" := 5; KItem "b" := 7]} 1 Hdom).
Defined.

(** X9: for a size above the size of every basket the generator returns
    the empty table. *)
Theorem generate_next_candidates_too_large (all_baskets : list basket)
    (l_1 : table) (k : nat) :
  (max_basket_size all_baskets < k)%nat →
  generate_next_candidates all_baskets l_1 k = ∅.
Proof.
  intros Hk. apply map_empty. intros κ. apply eq_None_not_Some.
  intros [n (t & -> & (Hlen & Hs & _) & -> & Hpos)
            %lookup_generate_next_candidates].
  apply support_count_pos_length in Hpos; [lia|].
  by apply StronglySorted_lt_NoDup.
Qed.

Lemma generate_next_candidates_too_large_witness :
  (max_basket_size [{["a"; "b"]}; {["a"]}] < 3)%nat ∧
  generate_next_candidates [{["a"; "b"]}; {["a"]}]
    {[KItem "a" := 2; KItem "b" := 1]} 3 = ∅.
Proof.
  assert (max_basket_size [{["a"; "b"]}; {["a"]}] < 3)%nat as Hk
    by (vm_compute; lia).
  split; [exact Hk|].
  exact (generate_next_candidates_too_large [{["a"; "b"]}; {["a"]}]
           {[KItem "a" := 2; KItem "b" := 1]} 3 Hk).
Defined.

(** X10: for size 0 the generator counts the empty tuple once per basket:
    its table has the single key [()] with the number of baskets, and is
    empty for the empty corpus. *)
Theorem generate_next_candidates_size_0 (all_baskets : list basket)
    (l_1 : table) (κ : key) (n : Z) :
  generate_next_candidates all_baskets l_1 0 !! κ = Some n ↔
    κ = KTuple [] ∧ n = Z.of_nat (length all_baskets) ∧ all_baskets ≠ [].
Proof.
  rewrite lookup_generate_next_candidates. split.
  - intros (t & -> & (Hlen%nil_length_inv & _) & -> & Hpos). subst t.
    rewrite support_count_nil in *. split_and!; [done..|].
    intros ->. simpl in Hpos. lia.
  - intros (-> & -> & Hne). exists []. rewrite support_count_nil.
    split; [done|]. split; [|split; [done|]].
    + split_and!; [done|constructor|by intros i ?%elem_of_nil].
    + destruct all_baskets; [done|]. simpl. lia.
Qed.

(** X11: the candidate tables are closed downwards: every subsequence of a
    key of the table of size [k] is a key of the table of its own size, with
    a count that is at least as large. *)
Theorem generate_next_candidates_downward (all_baskets : list basket)
    (l_1 : table) (k : nat) (t t' : list item) (n : Z) :
  generate_next_candidates all_baskets l_1 k !! KTuple t = Some n →
  sublist t' t →
  ∃ n', generate_next_candidates all_baskets l_1 (length t') !! KTuple t'
        = Some n' ∧ n ≤ n'.
Proof.
  intros (t0 & [= <-] & (Hlen & Hs & Hin) & -> & Hpos)
           %lookup_generate_next_candidates Hsub.
  assert (support_count all_baskets t ≤ support_count all_baskets t')
    by (by apply support_count_anti, sublist_subseteq).
  exists (support_count all_baskets t'). split; [|done].
  apply lookup_generate_next_candidates. exists t'.
  split; [done|]. split; [|split; [done|lia]].
  split_and!; [done|by eapply StronglySorted_sublist|].
  intros i Hi. apply Hin. by eapply elem_of_sublist.
Qed.

Lemma generate_next_candidates_downward_witness :
  generate_next_candidates [{["a"; "b"]}]
    {[KItem "a" := 1; KItem "b" := 1]} 2 !! KTuple ["a"; "b"] = Some 1 ∧
  ∃ n', generate_next_candidates [{["a"; "b"]}]
          {[KItem "a" := 1; KItem "b" := 1]} (length ["b"]) !! KTuple ["b"]
        = Some n' ∧ 1 ≤ n'.
Proof.
  assert (generate_next_candidates [{["a"; "b"]}]
            {[KItem "a" := 1; KItem "b" := 1]} 2 !! KTuple ["a"; "b"]
          = Some 1) as Hk by (vm_compute; reflexivity).
  split; [exact Hk|].
  refine (generate_next_candidates_downward [{["a"; "b"]}]
            {[KItem "a" := 1; KItem "b" := 1]} 2 ["a"; "b"] ["b"] 1 Hk _).
  apply sublist_cons, sublist_skip, sublist_nil.
Defined.

(** ** Apriori Driver *)

(** The loop computes every level that holds a frequent itemset: were a
    frequent itemset at or above the level at which the loop stops, its
    prefix of that level would populate it. *)
Lemma apriori_levels_reach all_baskets support (c_1 : table) fuel a g k' t :
  apriori_levels fuel all_baskets support c_1 = Some (a, g, k') →
  canonical (filter_candidates c_1 support) (length t) t →
  (2 ≤ length t)%nat →
  1 ≤ support_count all_baskets t → support_count all_baskets t > support →
  (length t < k')%nat.
Proof.
  intros Hrun (_ & Hs & Hin) Hlen Hpos Hfreq.
  apply apriori_levels_result in Hrun as (_ & _ & Hgo & _).
  destruct Hgo as [Hk' Hlast].
  { destruct t as [|i t']; [simpl in Hlen; lia|].
    destruct (Hin i) as [n Hn]; [left|].
    intros He. by rewrite He, lookup_empty in Hn. }
  destruct (decide (length t < k')%nat) as [|Hge]; [done|].
  assert (level all_baskets support (filter_candidates c_1 support) (k' - 1)
            !! KTuple (take (k' - 1) t)
          = Some (support_count all_baskets (take (k' - 1) t))) as Hl.
  { pose proof (sublist_take t (k' - 1)) as Hsub.
    assert (support_count all_baskets t
            ≤ support_count all_baskets (take (k' - 1) t))
      by (by apply support_count_anti, sublist_subseteq).
    apply lookup_level. exists (take (k' - 1) t).
    split; [done|]. split; [|split_and!; [done|lia..]].
    split_and!.
    - rewrite length_take. lia.
    - by eapply StronglySorted_sublist.
    - intros i Hi. apply Hin. by eapply elem_of_sublist. }
  by rewrite Hlast, lookup_empty in Hl.
Qed.

Lemma apriori_above_one_iff all_baskets support (c_1 : table) fuel a g k' κ n :
  apriori_levels fuel all_baskets support c_1 = Some (a, g, k') →
  g !! κ = Some n ↔
    ∃ t, κ = KTuple t ∧
         (2 ≤ length t ≤ max_basket_size all_baskets)%nat ∧
         StronglySorted item_lt t ∧
         (∀ i, i ∈ t → is_Some (filter_candidates c_1 support !! KItem i)) ∧
         n = support_count all_baskets t ∧ 1 ≤ n ∧ n > support.
Proof.
  intros Hrun. split.
  - intros Hg.
    destruct (apriori_above_one _ _ _ _ _ _ _ _ _ Hrun Hg)
      as (t & -> & Hlen & (_ & Hs & Hin) & -> & Hpos & Hfreq).
    exists t. split_and!; try done; [lia|].
    apply support_count_pos_length; [|done].
    by apply StronglySorted_lt_NoDup.
  - intros (t & -> & Hlen & Hs & Hin & -> & Hpos & Hfreq).
    assert (canonical (filter_candidates c_1 support) (length t) t) as Hc
      by done.
    pose proof (apriori_levels_reach _ _ _ _ _ _ _ _ Hrun Hc
                  (proj1 Hlen) Hpos Hfreq) as Hreach.
    apply apriori_levels_result in Hrun as (_ & _ & _ & _ & _ & Hg).
    apply Hg. exists (length t). split; [lia|].
    apply lookup_level. exists t. by split_and!.
Qed.

Lemma apriori_all_merge all_baskets support (c_1 : table) fuel a g k' :
  apriori_levels fuel all_baskets support c_1 = Some (a, g, k') →
  a = dict_merge (filter_candidates c_1 support) g.
Proof.
  intros (_ & _ & _ & _ & Ha & Hg)%apriori_levels_result.
  apply map_eq. intros κ. apply option_eq. intros n.
  rewrite Ha, lookup_dict_merge, Hg. split.
  - intros [?|[Hl Hnone]]; [by left|]. right. split; [|done].
    apply eq_None_not_Some. intros [m (j & Hj & Hm)%Hg].
    by rewrite (Hnone j Hj) in Hm.
  - intros [?|[Hnone Hl]]; [by left|]. right. split; [done|].
    intros j Hj. apply eq_None_not_Some. intros [m Hm].
    assert (g !! κ = Some m) as Hgm by (apply Hg; eauto).
    by rewrite Hnone in Hgm.
Qed.

(** X12: the table of the itemsets of size at least two holds exactly the
    ascending tuples of two or more level-1 frequent items whose number of
    containing baskets is positive and above the threshold, each with that
    number: stopping at the first empty level loses no frequent itemset.  No
    such itemset has more items than the largest basket. *)
Theorem apriori_above_one_exact (all_baskets : list basket) (support : Z)
    (c_1 : table) (fuel : nat) :
  (max_basket_size all_baskets < fuel)%nat →
  ∃ a g,
    apriori fuel all_baskets support c_1 = Some (a, g) ∧
    ∀ κ n,
      g !! κ = Some n ↔
        ∃ t, κ = KTuple t ∧
             (2 ≤ length t ≤ max_basket_size all_baskets)%nat ∧
             StronglySorted item_lt t ∧
             (∀ i, i ∈ t →
                is_Some (filter_candidates c_1 support !! KItem i)) ∧
             n = support_count all_baskets t ∧ 1 ≤ n ∧ n > support.
Proof.
  intros Hf.
  destruct (apriori_levels_terminates all_baskets support c_1 fuel Hf)
    as [[[a g] k'] Hrun].
  exists a, g. split; [by apply apriori_of_levels in Hrun|].
  intros κ n. by eapply apriori_above_one_iff.
Qed.

Lemma apriori_above_one_exact_witness :
  (max_basket_size [{["a"; "b"]}; {["a"]}] < 3)%nat ∧
  ∃ a g,
    apriori 3 [{["a"; "b"]}; {["a"]}] 0
      {[KItem "a" := 2; KItem "b" := 1]} = Some (a, g) ∧
    ∀ κ n,
      g !! κ = Some n ↔
        ∃ t, κ = KTuple t ∧
             (2 ≤ length t ≤ max_basket_size [{["a"; "b"]}; {["a"]}])%nat ∧
             StronglySorted item_lt t ∧
             (∀ i, i ∈ t →
                is_Some (filter_candidates
                           {[KItem "a" := 2; KItem "b" := 1]} 0 !! KItem i)) ∧
             n = support_count [{["a"; "b"]}; {["a"]}] t ∧ 1 ≤ n ∧ n > 0.
Proof.
  assert (max_basket_size [{["a"; "b"]}; {["a"]}] < 3)%nat as Hf
    by (vm_compute; lia).
  split; [exact Hf|].
  exact (apriori_above_one_exact [{["a"; "b"]}; {["a"]}] 0
           {[KItem "a" := 2; KItem "b" := 1]} 3 Hf).
Defined.

(** X13: the table of all frequent itemsets is the level-1 frequent table
    merged with the table of the itemsets of size at least two, the latter
    winning on a common key; so it contains the latter. *)
Theorem apriori_all_is_merge (all_baskets : list basket) (support : Z)
    (c_1 : table) (fuel : nat) :
  (max_basket_size all_baskets < fuel)%nat →
  ∃ a g,
    apriori fuel all_baskets support c_1 = Some (a, g) ∧
    a = dict_merge (filter_candidates c_1 support) g ∧
    g ⊆ a.
Proof.
  intros Hf.
  destruct (apriori_levels_terminates all_baskets support c_1 fuel Hf)
    as [[[a g] k'] Hrun].
  exists a, g. split; [by apply apriori_of_levels in Hrun|].
  pose proof (apriori_all_merge _ _ _ _ _ _ _ Hrun) as ->.
  split; [done|]. unfold dict_merge. apply map_union_subseteq_l.
Qed.

Lemma apriori_all_is_merge_witness :
  (max_basket_size [{["a"; "b"]}; {["a"]}] < 3)%nat ∧
  ∃ a g,
    apriori 3 [{["a"; "b"]}; {["a"]}] 0
      {[KItem "a" := 2; KItem "b" := 1]} = Some (a, g) ∧
    a = dict_merge (filter_candidates {[KItem "a" := 2; KItem "b" := 1]} 0) g ∧
    g ⊆ a.
Proof.
  assert (max_basket_size [{["a"; "b"]}; {["a"]}] < 3)%nat as Hf
    by (vm_compute; lia).
  split; [exact Hf|].
  exact (apriori_all_is_merge [{["a"; "b"]}; {["a"]}] 0
           {[KItem "a" := 2; KItem "b" := 1]} 3 Hf).
Defined.

(** ** The run on a file *)

(** In a run on a file the items of an itemset that is frequent are
    frequent at level 1. *)
Lemma pipeline_items_frequent rows support t i :
  i ∈ t →
  1 ≤ support_count (generate_all_single_candidates rows).2 t →
  support_count (generate_all_single_candidates rows).2 t > support →
  is_Some (filter_candidates (generate_all_single_candidates rows).1 support
             !! KItem i).
Proof.
  intros Hi Hpos Hfreq.
  assert (support_count (generate_all_single_candidates rows).2 t
          ≤ support_count (generate_all_single_candidates rows).2 [i]).
  { apply support_count_anti. by intros y ->%list_elem_of_singleton. }
  pose proof (token_count_ge_support rows i).
  exists (token_count rows i). apply lookup_filter_candidates.
  split; [|lia]. apply lookup_c_1_item. split; [done|lia].
Qed.

Lemma pipeline_tables rows support fuel a g k' :
  apriori_levels fuel (generate_all_single_candidates rows).2 support
    (generate_all_single_candidates rows).1 = Some (a, g, k') →
  (∀ i n, a !! KItem i = Some n ↔
     n = token_count rows i ∧ 1 ≤ n ∧ n > support) ∧
  (∀ t n, a !! KTuple t = Some n ↔ g !! KTuple t = Some n) ∧
  (∀ κ n, g !! κ = Some n ↔
     ∃ t, κ = KTuple t ∧ (2 ≤ length t)%nat ∧ StronglySorted item_lt t ∧
          n = support_count (generate_all_single_candidates rows).2 t ∧
          1 ≤ n ∧ n > support).
Proof.
  intros Hrun.
  assert (∀ κ n, g !! κ = Some n ↔
     ∃ t, κ = KTuple t ∧ (2 ≤ length t)%nat ∧ StronglySorted item_lt t ∧
          n = support_count (generate_all_single_candidates rows).2 t ∧
          1 ≤ n ∧ n > support) as Hg.
  { intros κ n. rewrite (apriori_above_one_iff _ _ _ _ _ _ _ _ _ Hrun). split.
    - intros (t & -> & Hlen & Hs & _ & -> & Hpos & Hfreq).
      exists t. split_and!; try done. lia.
    - intros (t & -> & Hlen & Hs & -> & Hpos & Hfreq).
      exists t. split_and!; try done.
      + apply support_count_pos_length; [|done].
        by apply StronglySorted_lt_NoDup.
      + intros i Hi. by eapply pipeline_items_frequent. }
  pose proof (apriori_all_merge _ _ _ _ _ _ _ Hrun) as Ha.
  split_and!; [| |done].
  - intros i n. rewrite Ha, lookup_dict_merge, lookup_filter_candidates.
    rewrite lookup_c_1_item. split.
    + intros [(t & [=] & _)%Hg|[_ [[-> ?] ?]]]. done.
    + intros (-> & ? & ?). right. split; [|done].
      apply eq_None_not_Some. by intros [m (t & [=] & _)%Hg].
  - intros t n. rewrite Ha, lookup_dict_merge, lookup_filter_candidates.
    rewrite lookup_c_1_tuple. split; [|by left].
    by intros [?|[_ [[=] _]]].
Qed.

(** X14: in a run on a file, restricting the candidates to the level-1
    frequent items loses nothing.  The table of all frequent itemsets holds
    a bare item exactly when its token count is above the threshold, and a
    tuple exactly when it is an ascending tuple of two or more items whose
    number of containing baskets is positive and above the threshold. *)
Theorem mined_itemsets_exact (rows : list (list item)) (support : Z)
    (fuel : nat) :
  (max_basket_size (generate_all_single_candidates rows).2 < fuel)%nat →
  ∃ a g,
    apriori fuel (generate_all_single_candidates rows).2 support
      (generate_all_single_candidates rows).1 = Some (a, g) ∧
    (∀ i n, a !! KItem i = Some n ↔
       n = token_count rows i ∧ 1 ≤ n ∧ n > support) ∧
    (∀ t n, a !! KTuple t = Some n ↔
       (2 ≤ length t)%nat ∧ StronglySorted item_lt t ∧
       n = support_count (generate_all_single_candidates rows).2 t ∧
       1 ≤ n ∧ n > support).
Proof.
  intros Hf.
  destruct (apriori_levels_terminates _ support
              (generate_all_single_candidates rows).1 fuel Hf)
    as [[[a g] k'] Hrun].
  exists a, g. split; [by apply apriori_of_levels in Hrun|].
  destruct (pipeline_tables _ _ _ _ _ _ Hrun) as (Hi & Ht & Hg).
  split; [done|]. intros t n. rewrite Ht, Hg. split.
  - by intros (t' & [= <-] & ?).
  - intros ?. by exists t.
Qed.

Lemma mined_itemsets_exact_witness :
  (max_basket_size (generate_all_single_candidates [["a"; "b"]; ["a"]]).2
   < 3)%nat ∧
  ∃ a g,
    apriori 3 (generate_all_single_candidates [["a"; "b"]; ["a"]]).2 0
      (generate_all_single_candidates [["a"; "b"]; ["a"]]).1 = Some (a, g) ∧
    ∀ i n, a !! KItem i = Some n ↔
      n = token_count [["a"; "b"]; ["a"]] i ∧ 1 ≤ n ∧ n > 0.
Proof.
  assert (max_basket_size
            (generate_all_single_candidates [["a"; "b"]; ["a"]]).2 < 3)%nat
    as Hf by (vm_compute; lia).
  split; [exact Hf|].
  destruct (mined_itemsets_exact [["a"; "b"]; ["a"]] 0 3 Hf)
    as (a & g & Ha & Hi & _).
  exists a, g. exact (conj Ha Hi).
Defined.

(** X15: in a run on a file a higher support threshold gives tables that
    are part of the tables of a lower one. *)
Theorem mined_itemsets_antitone (rows : list (list item))
    (support support' : Z) (fuel : nat) :
  (max_basket_size (generate_all_single_candidates rows).2 < fuel)%nat →
  support ≤ support' →
  ∃ a g a' g',
    apriori fuel (generate_all_single_candidates rows).2 support
      (generate_all_single_candidates rows).1 = Some (a, g) ∧
    apriori fuel (generate_all_single_candidates rows).2 support'
      (generate_all_single_candidates rows).1 = Some (a', g') ∧
    a' ⊆ a ∧ g' ⊆ g.
Proof.
  intros Hf Hle.
  destruct (apriori_levels_terminates _ support
              (generate_all_single_candidates rows).1 fuel Hf)
    as [[[a g] k] Hrun].
  destruct (apriori_levels_terminates _ support'
              (generate_all_single_candidates rows).1 fuel Hf)
    as [[[a' g'] k'] Hrun'].
  exists a, g, a', g'.
  split; [by apply apriori_of_levels in Hrun|].
  split; [by apply apriori_of_levels in Hrun'|].
  destruct (pipeline_tables _ _ _ _ _ _ Hrun) as (Hi & Ht & Hg).
  destruct (pipeline_tables _ _ _ _ _ _ Hrun') as (Hi' & Ht' & Hg').
  assert (g' ⊆ g) as Hsub.
  { apply map_subseteq_spec. intros κ n.
    intros (t & -> & ? & ? & ? & ? & ?)%Hg'. apply Hg. exists t.
    split_and!; try done. lia. }
  split; [|done]. apply map_subseteq_spec. intros [i|t] n.
  - intros (-> & ? & ?)%Hi'. apply Hi. split_and!; try done. lia.
  - intros Hn%Ht'. apply Ht. by eapply map_subseteq_spec.
Qed.

Lemma mined_itemsets_antitone_witness :
  (max_basket_size (generate_all_single_candidates [["a"; "b"]; ["a"]]).2
   < 3)%nat ∧ 0 ≤ 1 ∧
  ∃ a g a' g',
    apriori 3 (generate_all_single_candidates [["a"; "b"]; ["a"]]).2 0
      (generate_all_single_candidates [["a"; "b"]; ["a"]]).1 = Some (a, g) ∧
    apriori 3 (generate_all_single_candidates [["a"; "b"]; ["a"]]).2 1
      (generate_all_single_candidates [["a"; "b"]; ["a"]]).1 = Some (a', g') ∧
    a' ⊆ a ∧ g' ⊆ g.
Proof.
  assert (max_basket_size
            (generate_all_single_candidates [["a"; "b"]; ["a"]]).2 < 3)%nat
    as Hf by (vm_compute; lia).
  assert (0 ≤ 1) as Hle by lia.
  split; [exact Hf|]. split; [exact Hle|].
  exact (mined_itemsets_antitone [["a"; "b"]; ["a"]] 0 1 3 Hf Hle).
Defined.

(** ** Rule Miner on arbitrary tables *)

Lemma for_each_inr {A S} (l : list A) (body : S → A → error + S) s s' x :
  for_each l body s = inr s' → x ∈ l → ∃ s1 s2, body s1 x = inr s2.
Proof.
  revert s. induction l as [|y l IH]; intros s Hrun Hx; [by apply elem_of_nil in Hx|].
  simpl in Hrun. destruct (body s y) as [e|s2] eqn:Hb; [done|]. simpl in Hrun.
  apply elem_of_cons in Hx as [->|Hx]; [eauto|]. by eapply IH.
Qed.

Lemma rule_step_inr_inv a thr X sup acc A r :
  rule_step a thr X sup acc A = inr r →
  ∃ d, antecedent_support a A = Some d ∧ d ≠ 0.
Proof.
  unfold rule_step, antecedent_support, getitem, truediv.
  destruct (antecedent_key A) as [e|ak]; simpl; [done|].
  destruct (a !! ak) as [d|]; simpl; [|done].
  case_decide; [done|]. eauto.
Qed.


Lemma miner_returns a g thr rules :
  generate_association_rules a g thr = inr rules → miner_ready a g.
Proof.
  unfold generate_association_rules. intros Hrun κ sup A [Hκ (i & Hi & HA)].
  apply elem_of_map_to_list in Hκ.
  destruct (for_each_inr _ _ _ _ _ Hrun Hκ) as (s1 & s2 & H1).
  apply elem_of_enumeration in Hi.
  destruct (for_each_inr _ _ _ _ _ H1 Hi) as (s3 & s4 & H2).
  destruct (for_each_inr _ _ _ _ _ H2 HA) as (s5 & s6 & H3).
  by eapply rule_step_inr_inv.
Qed.








(** ** Shape of the rules *)

Lemma sublist_shorter_missing (A X : list item) :
  NoDup X → sublist A X → (length A < length X)%nat →
  ∃ x, x ∈ X ∧ x ∉ A.
Proof.
  intros Hnd Hsub Hlen.
  destruct (decide (Forall (λ x, x ∈ A) X)) as [Hall|Hn].
  - assert (length X ≤ length A)%nat; [|lia].
    apply submseteq_length, NoDup_submseteq; [done|].
    by apply Forall_forall.
  - apply not_Forall_Exists in Hn; [|apply _].
    apply Exists_exists in Hn as (x & ? & ?). eauto.
Qed.

(** X19: on the tables of the driver every rule splits one itemset of the
    table of the itemsets of size at least two: its antecedent and its
    consequent are non-empty and disjoint, their union is the set of the
    items of the itemset, and its support is the count of the itemset. *)
Theorem rules_split_itemsets (all_baskets : list basket) (support : Z)
    (c_1 : table) (fuel : nat) :
  (max_basket_size all_baskets < fuel)%nat →
  ∃ a g,
    apriori fuel all_baskets support c_1 = Some (a, g) ∧
    ∀ conf_threshold rules r,
      generate_association_rules a g conf_threshold = inr rules →
      r ∈ rules →
      ∃ X, g !! KTuple X = Some (rule_support r) ∧
           antecedent r ≠ ∅ ∧ consequent r ≠ ∅ ∧
           antecedent r ## consequent r ∧
           antecedent r ∪ consequent r = list_to_set X.
Proof.
  intros Hf.
  destruct (apriori_levels_terminates all_baskets support c_1 fuel Hf)
    as [[[a g] k'] Hrun].
  exists a, g. split; [by apply apriori_of_levels in Hrun|].
  intros thr rules r Hrules Hr.
  rewrite (generate_association_rules_inr a g thr) in Hrules
    by by eapply miner_returns.
  injection Hrules as <-.
  apply elem_of_rules in Hr as (κ & sup & A & d & Hen & _ & _ & ->).
  destruct Hen as [Hg (i & Hi & HA)].
  destruct (apriori_above_one _ _ _ _ _ _ _ _ _ Hrun Hg)
    as (X & -> & _ & (_ & HsX & _) & _).
  simpl in *. apply elem_of_combinations in HA as [Hsub HlenA].
  exists X. split; [done|].
  assert (A ⊆ X) as HAX by by apply sublist_subseteq.
  split_and!.
  - destruct A as [|x A']; [simpl in HlenA; lia|].
    intros He. apply (not_elem_of_empty (C := basket) x). rewrite <-He.
    apply elem_of_list_to_set. left.
  - destruct (sublist_shorter_missing A X) as (x & Hx & HxA);
      [by apply StronglySorted_lt_NoDup|done|lia|].
    intros He. apply (not_elem_of_empty (C := basket) x). rewrite <-He.
    apply elem_of_difference. by rewrite !elem_of_list_to_set.
  - apply elem_of_disjoint. by intros x Hx [_ Hn]%elem_of_difference.
  - apply set_eq. intros x. rewrite elem_of_union, elem_of_difference.
    rewrite !elem_of_list_to_set. split.
    + intros [?|[? _]]; [by apply HAX|done].
    + intros Hx. destruct (decide (x ∈ A)); [by left|by right].
Qed.

Lemma rules_split_itemsets_witness :
  (max_basket_size [{["a"; "b"]}; {["a"]}] < 3)%nat ∧
  ∃ a g,
    apriori 3 [{["a"; "b"]}; {["a"]}] 0
      {[KItem "a" := 2; KItem "b" := 1]} = Some (a, g) ∧
    ∀ conf_threshold rules r,
      generate_association_rules a g conf_threshold = inr rules →
      r ∈ rules →
      ∃ X, g !! KTuple X = Some (rule_support r) ∧
           antecedent r ≠ ∅ ∧ consequent r ≠ ∅ ∧
           antecedent r ## consequent r ∧
           antecedent r ∪ consequent r = list_to_set X.
Proof.
  assert (max_basket_size [{["a"; "b"]}; {["a"]}] < 3)%nat as Hf
    by (vm_compute; lia).
  split; [exact Hf|].
  exact (rules_split_itemsets [{["a"; "b"]}; {["a"]}] 0
           {[KItem "a" := 2; KItem "b" := 1]} 3 Hf).
Defined.

(** ** Number of rules *)

Section counting.
Context {A : Type}.
Implicit Types (l : list A).

Lemma combinations_full l : combinations l (length l) = [l].
Proof.
  induction l as [|x l IH]; [done|]. simpl. rewrite IH.
  by rewrite combinations_too_long by lia.
Qed.

Lemma sum_list_with_shift (f : nat → nat) s m :
  sum_list_with (λ k, f (S k)) (seq s m) = sum_list_with f (seq (S s) m).
Proof.
  revert s. induction m as [|m IH]; intros s; [done|].
  simpl. by rewrite IH.
Qed.

Lemma sum_list_with_pointwise {B} (f f' : B → nat) (l : list B) :
  (∀ x, f x = f' x) → sum_list_with f l = sum_list_with f' l.
Proof. intros Hf. induction l as [|x l IH]; simpl; [done|]. by rewrite Hf, IH. Qed.

Lemma sum_list_with_ones {B} (l : list B) :
  sum_list_with (λ _, 1%nat) l = length l.
Proof. induction l as [|x l IH]; simpl; [done|]. by rewrite IH. Qed.

Lemma sum_list_with_add {B} (f f' : B → nat) (l : list B) :
  sum_list_with (λ x, f x + f' x)%nat l
  = (sum_list_with f l + sum_list_with f' l)%nat.
Proof. induction l as [|x l IH]; simpl; lia. Qed.

Lemma combinations_count_cons x l m :
  sum_list_with (λ k, length (combinations (x :: l) k)) (seq 0 (S m))
  = (sum_list_with (λ k, length (combinations l k)) (seq 0 m)
     + sum_list_with (λ k, length (combinations l k)) (seq 0 (S m)))%nat.
Proof.
  change (seq 0 (S m)) with (0%nat :: seq 1 m).
  cbn [sum_list_with]. rewrite <-!sum_list_with_shift.
  rewrite (sum_list_with_pointwise
             (λ k, length (combinations (x :: l) (S k)))
             (λ k, length (combinations l k)
                   + length (combinations l (S k)))%nat).
  - rewrite sum_list_with_add. destruct l; simpl; lia.
  - intros k. simpl. by rewrite length_app, length_fmap.
Qed.

Lemma combinations_count_large l m :
  (length l < m)%nat →
  sum_list_with (λ k, length (combinations l k)) (seq 0 (S m))
  = sum_list_with (λ k, length (combinations l k)) (seq 0 m).
Proof.
  intros Hm. rewrite seq_S, sum_list_with_app. simpl.
  rewrite combinations_too_long by done. simpl. lia.
Qed.

(** A list of [n] elements has [2 ^ n] combinations in all. *)
Lemma combinations_count l :
  sum_list_with (λ k, length (combinations l k)) (seq 0 (S (length l)))
  = (2 ^ length l)%nat.
Proof.
  induction l as [|x l IH]; [done|].
  cbn [length]. rewrite combinations_count_cons, IH.
  rewrite combinations_count_large, IH by lia.
  rewrite Nat.pow_succ_r'. lia.
Qed.

(** Those of at least one and less than all of its elements are
    [2 ^ n - 2]. *)
Lemma proper_combinations_count l :
  length (seq 1 (length l - 1) ≫= combinations l) = (2 ^ length l - 2)%nat.
Proof.
  destruct l as [|x l]; [done|].
  pose proof (combinations_count (x :: l)) as Hall.
  change (seq 0 (S (length (x :: l))))
    with (0%nat :: seq 1 (length (x :: l))) in Hall.
  cbn [length] in *. replace (S (length l) - 1)%nat with (length l) by lia.
  rewrite seq_S in Hall. cbn [sum_list_with] in Hall.
  rewrite sum_list_with_app in Hall. cbn [sum_list_with] in Hall.
  change (1 + length l)%nat with (length (x :: l)) in Hall.
  rewrite combinations_full in Hall.
  assert (length (seq 1 (length l) ≫= combinations (x :: l))
          = sum_list_with (λ k, length (combinations (x :: l) k))
              (seq 1 (length l))) as ->.
  { generalize (seq 1 (length l)). intros ks.
    induction ks as [|k ks IH]; [done|].
    rewrite bind_cons, length_app, IH. done. }
  remember (sum_list_with (λ k, length (combinations (x :: l) k))
              (seq 1 (length l))) as E.
  cbn [combinations length] in Hall. lia.
Qed.
End counting.

Lemma length_bind_le {A B} (f : A → list B) (h : A → nat) (l : list A) :
  (∀ x, x ∈ l → length (f x) ≤ h x)%nat →
  (length (l ≫= f) ≤ sum_list_with h l)%nat.
Proof.
  induction l as [|x l IH]; intros Hf; [done|].
  rewrite bind_cons, length_app. simpl.
  pose proof (Hf x ltac:(left)).
  assert (length (l ≫= f) ≤ sum_list_with h l)%nat; [|lia].
  apply IH. intros y Hy. apply Hf. by right.
Qed.

Lemma length_bind_eq {A B} (f : A → list B) (h : A → nat) (l : list A) :
  (∀ x, x ∈ l → length (f x) = h x) →
  length (l ≫= f) = sum_list_with h l.
Proof.
  induction l as [|x l IH]; intros Hf; [done|].
  rewrite bind_cons, length_app. simpl.
  rewrite (Hf x) by left. f_equal. apply IH. intros y Hy. apply Hf. by right.
Qed.

Lemma length_emit thr X sup A d : (length (emit thr X sup A d) ≤ 1)%nat.
Proof. unfold emit. destruct (Qgtb _ _); simpl; lia. Qed.

Lemma length_rules_of_le a thr κ sup :
  (length (rules_of a thr κ sup) ≤ 2 ^ length (key_seq κ) - 2)%nat.
Proof.
  unfold rules_of. rewrite <-proper_combinations_count.
  rewrite (length_bind_eq (combinations (key_seq κ))
             (λ i, length (combinations (key_seq κ) i))) by done.
  apply length_bind_le. intros i _.
  etrans; [apply (length_bind_le _ (λ _, 1%nat))|].
  - intros A _. destruct (antecedent_support a A); simpl; [|lia].
    apply length_emit.
  - by rewrite sum_list_with_ones.
Qed.

Lemma length_rules_of_all a g thr κ sup :
  g !! κ = Some sup →
  (∀ A, enumerated g κ sup A →
     ∃ d, antecedent_support a A = Some d ∧
          (thr < inject_Z sup / inject_Z d)%Q) →
  length (rules_of a thr κ sup) = (2 ^ length (key_seq κ) - 2)%nat.
Proof.
  intros Hg Hall. unfold rules_of. rewrite <-proper_combinations_count.
  rewrite (length_bind_eq (combinations (key_seq κ))
             (λ i, length (combinations (key_seq κ) i))) by done.
  apply length_bind_eq. intros i Hi%elem_of_enumeration.
  rewrite (length_bind_eq _ (λ _, 1%nat)); [apply sum_list_with_ones|].
  intros A HA. destruct (Hall A) as (d & -> & Hq); [split; eauto|].
  simpl. unfold emit. apply Qgtb_lt in Hq. by rewrite Hq.
Qed.

(** X20: an itemset of [n] items has [2 ^ n - 2] antecedents, so the miner
    never returns more rules than the sum of [2 ^ n - 2] over the itemsets
    of its second table. *)
Theorem rule_count_bound (a g : table) (conf_threshold : Q)
    (rules : list rule) :
  generate_association_rules a g conf_threshold = inr rules →
  (length rules
   ≤ sum_list_with (λ '(κ, _), 2 ^ length (key_seq κ) - 2) (map_to_list g))%nat.
Proof.
  intros Hrun.
  rewrite (generate_association_rules_inr a g conf_threshold) in Hrun
    by by eapply miner_returns.
  injection Hrun as <-.
  apply length_bind_le. intros [κ sup] _. apply length_rules_of_le.
Qed.

Lemma rule_count_bound_witness :
  generate_association_rules
    {[KItem "a" := 3; KItem "b" := 2; KTuple ["a"; "b"] := 2]}
    {[KTuple ["a"; "b"] := 2]} (3 # 4)
  = inr [Rule {["b"]} {["a"]} 2 (2 # 2)] ∧
  (length [Rule {["b"]} {["a"]} 2 (2 # 2)]
   ≤ sum_list_with (λ '(κ, _), 2 ^ length (key_seq κ) - 2)
       (map_to_list ({[KTuple ["a"; "b"] := 2%Z]} : table)))%nat.
Proof.
  assert (generate_association_rules
            {[KItem "a" := 3; KItem "b" := 2; KTuple ["a"; "b"] := 2]}
            {[KTuple ["a"; "b"] := 2]} (3 # 4)
          = inr [Rule {["b"]} {["a"]} 2 (2 # 2)]) as Hrun
    by (vm_compute; reflexivity).
  split; [exact Hrun|].
  exact (rule_count_bound _ _ (3 # 4) _ Hrun).
Defined.

(** X21: in a run on a file with a confidence threshold of at most 0 the
    miner returns exactly [2 ^ n - 2] rules for every frequent itemset of
    [n >= 2] items. *)
Theorem rule_count_all (rows : list (list item)) (support : Z)
    (conf_threshold : Q) (fuel : nat) :
  (max_basket_size (generate_all_single_candidates rows).2 < fuel)%nat →
  (conf_threshold <= 0)%Q →
  ∃ a g rules,
    apriori fuel (generate_all_single_candidates rows).2 support
      (generate_all_single_candidates rows).1 = Some (a, g) ∧
    generate_association_rules a g conf_threshold = inr rules ∧
    length rules
    = sum_list_with (λ '(κ, _), 2 ^ length (key_seq κ) - 2)%nat
        (map_to_list g).
Proof.
  intros Hf Hthr.
  destruct (pipeline_mined rows fuel support conf_threshold Hf)
    as (a & g & k' & Hrun & Hready & Hrules).
  exists a, g. eexists.
  split; [by apply apriori_of_levels in Hrun|]. split; [exact Hrules|].
  apply length_bind_eq. intros [κ sup] Hκ%elem_of_map_to_list.
  apply (length_rules_of_all a g); [done|].
  intros A Hen. destruct (Hready _ _ _ Hen) as (d & Hd & Hsup & Hle).
  exists d. split; [done|].
  eapply Qle_lt_trans; [exact Hthr|]. apply confidence_pos; lia.
Qed.

Lemma rule_count_all_witness :
  (max_basket_size (generate_all_single_candidates [["a"; "b"]; ["a"]]).2
   < 3)%nat ∧ (0 <= 0)%Q ∧
  ∃ a g rules,
    apriori 3 (generate_all_single_candidates [["a"; "b"]; ["a"]]).2 0
      (generate_all_single_candidates [["a"; "b"]; ["a"]]).1 = Some (a, g) ∧
    generate_association_rules a g 0 = inr rules ∧
    length rules
    = sum_list_with (λ '(κ, _), 2 ^ length (key_seq κ) - 2)%nat
        (map_to_list g).
Proof.
  assert (max_basket_size
            (generate_all_single_candidates [["a"; "b"]; ["a"]]).2 < 3)%nat
    as Hf by (vm_compute; lia).
  assert (0 <= 0)%Q as Hthr by (vm_compute; discriminate).
  split; [exact Hf|]. split; [exact Hthr|].
  exact (rule_count_all [["a"; "b"]; ["a"]] 0 0 3 Hf Hthr).
Defined.

(** ** Further facts on the tables *)

(** X22: every count of the two tables of the driver is above the support
    threshold. *)
Theorem apriori_counts_above_threshold (all_baskets : list basket)
    (support : Z) (c_1 : table) (fuel : nat) :
  (max_basket_size all_baskets < fuel)%nat →
  ∃ a g,
    apriori fuel all_baskets support c_1 = Some (a, g) ∧
    (∀ κ n, a !! κ = Some n → n > support) ∧
    (∀ κ n, g !! κ = Some n → n > support).
Proof.
  intros Hf.
  destruct (apriori_levels_terminates all_baskets support c_1 fuel Hf)
    as [[[a g] k'] Hrun].
  exists a, g. split; [by apply apriori_of_levels in Hrun|].
  assert (∀ κ n, g !! κ = Some n → n > support) as Hg.
  { intros κ n Hn.
    by destruct (apriori_above_one _ _ _ _ _ _ _ _ _ Hrun Hn)
      as (X & _ & _ & _ & _ & _ & ?). }
  split; [|done]. intros κ n.
  rewrite (apriori_all_merge _ _ _ _ _ _ _ Hrun), lookup_dict_merge.
  intros [?|[_ [_ ?]%lookup_filter_candidates]]; [by eapply Hg|done].
Qed.

Lemma apriori_counts_above_threshold_witness :
  (max_basket_size [{["a"; "b"]}; {["a"]}] < 3)%nat ∧
  ∃ a g,
    apriori 3 [{["a"; "b"]}; {["a"]}] 0
      {[KItem "a" := 2; KItem "b" := 1]} = Some (a, g) ∧
    (∀ κ n, a !! κ = Some n → n > 0) ∧
    (∀ κ n, g !! κ = Some n → n > 0).
Proof.
  assert (max_basket_size [{["a"; "b"]}; {["a"]}] < 3)%nat as Hf
    by (vm_compute; lia).
  split; [exact Hf|].
  exact (apriori_counts_above_threshold [{["a"; "b"]}; {["a"]}] 0
           {[KItem "a" := 2; KItem "b" := 1]} 3 Hf).
Defined.

(** X23: the Level-1 Counter adds up over a file cut in two: the count of
    a key for the rows [rows1 ++ rows2] is the sum of its counts for
    [rows1] and for [rows2] (a key that is absent counting for 0), and the
    baskets are those of [rows1] followed by those of [rows2]. *)
Theorem counter_additive (rows1 rows2 : list (list item)) (κ : key) :
  cnt (generate_all_single_candidates (rows1 ++ rows2)).1 κ
  = cnt (generate_all_single_candidates rows1).1 κ
    + cnt (generate_all_single_candidates rows2).1 κ ∧
  (generate_all_single_candidates (rows1 ++ rows2)).2
  = (generate_all_single_candidates rows1).2
    ++ (generate_all_single_candidates rows2).2.
Proof.
  rewrite !pipeline_baskets, !pipeline_c_1, fmap_app. split; [|done].
  rewrite !cnt_foldl_increment. unfold cnt. rewrite lookup_empty. simpl.
  rewrite join_app, fmap_app, occurrences_app. lia.
Qed.
